(** * WebServer: an in-memory store of posts behind four HTTP handlers

    Shallow embedding of [main.go].  The program keeps two package-level
    variables, the map [posts] and the counter [nextID], guarded by one
    mutex [postsMu].  Every handler holds the mutex for the whole time it
    touches the two variables, so a run of the server is a sequence of
    handler invocations, each one a function from the store to a response
    and a new store.

    Go's [int] is taken at its 64-bit width and modelled as [Z] with the
    wrap-around of [nextID++] written out; a Go [string] is a sequence of
    bytes, which is what [string] is here. *)

From Stdlib Require Import ZArith String Ascii List Lia Sorted.
From stdpp Require Import base option numbers list strings sorting gmap fin_maps.

Local Open Scope Z_scope.
Local Set Warnings "-register-all".

(** ** Machine integers *)

Definition MaxInt : Z := 9223372036854775807.
Definition MinInt : Z := -9223372036854775808.
Definition IntModulus : Z := 18446744073709551616.

(** The value of a 64-bit two's complement integer after an arithmetic
    operation whose mathematical result is [z]. *)
Definition wrap (z : Z) : Z := (z - MinInt) mod IntModulus + MinInt.

Definition in_int_range (z : Z) : Prop := MinInt <= z <= MaxInt.

(** ** Data model *)

(** [type Post struct { ID int `json:"id"`; Body string `json:"body"` }] *)
Record Post : Type := mkPost { ID : Z; Body : string }.

(** The zero value of [Post], what [var p Post] declares. *)
Definition zeroPost : Post := mkPost 0 "".

(** The package-level variables [posts] and [nextID]. *)
Record Store : Type := mkStore { posts : gmap Z Post; nextID : Z }.

(** [posts = make(map[int]Post)], [nextID = 1]. *)
Definition initial : Store := mkStore ∅ 1.

(** ** Slices of posts

    A slice is either [nil] or backed by an array; [make] never returns
    [nil], and [append] to any slice returns a backed one.  The capacity
    plays no part in what the program observes and is not recorded. *)
Inductive slice : Type :=
  | NilSlice
  | Slice (elems : list Post).

Definition make_slice (len : nat) (cap : nat) : slice :=
  Slice (replicate len zeroPost).

Definition append (ps : slice) (p : Post) : slice :=
  match ps with
  | NilSlice => Slice [p]
  | Slice l => Slice (l ++ [p])
  end.

Definition elements_of (ps : slice) : list Post :=
  match ps with
  | NilSlice => []
  | Slice l => l
  end.

(** ** JSON values written by [json.Encoder]

    The encoder is Go's; what the program decides is which Go value it
    hands to it.  A struct is encoded as an object keyed by the field
    tags, a slice as an array, and a [nil] slice as [null]. *)
Inductive json : Type :=
  | JNull
  | JNum (n : Z)
  | JStr (s : string)
  | JArr (items : list json)
  | JObj (fields : list (string * json)).

Definition json_of_Post (p : Post) : json :=
  JObj [("id", JNum (ID p)); ("body", JStr (Body p))].

Definition json_of_slice (ps : slice) : json :=
  match ps with
  | NilSlice => JNull
  | Slice l => JArr (json_of_Post <$> l)
  end.

(** ** The response writer

    [code] is [None] until the status line has been sent.  Headers set
    after that point do not reach the client, a second [WriteHeader] is
    ignored, and the first write sends status 200 when nothing was sent
    before. *)
Inductive chunk : Type :=
  | Text (s : string)
  | JSONLine (v : json).

Record ResponseWriter : Type := mkResponseWriter {
  header : gmap string string;
  code : option Z;
  written : list chunk
}.

Definition newResponse : ResponseWriter := mkResponseWriter ∅ None [].

Definition StatusOK : Z := 200.
Definition StatusCreated : Z := 201.
Definition StatusBadRequest : Z := 400.
Definition StatusNotFound : Z := 404.
Definition StatusMethodNotAllowed : Z := 405.
Definition StatusInternalServerError : Z := 500.

Definition header_set (k v : string) (w : ResponseWriter) : ResponseWriter :=
  match code w with
  | None => mkResponseWriter (<[k := v]> (header w)) (code w) (written w)
  | Some _ => w
  end.

Definition header_del (k : string) (w : ResponseWriter) : ResponseWriter :=
  match code w with
  | None => mkResponseWriter (delete k (header w)) (code w) (written w)
  | Some _ => w
  end.

Definition WriteHeader (c : Z) (w : ResponseWriter) : ResponseWriter :=
  match code w with
  | None => mkResponseWriter (header w) (Some c) (written w)
  | Some _ => w
  end.

Definition writeChunk (d : chunk) (w : ResponseWriter) : ResponseWriter :=
  let w' := WriteHeader StatusOK w in
  mkResponseWriter (header w') (code w') (written w' ++ [d]).

(** [json.NewEncoder(w).Encode(v)] *)
Definition Encode (v : json) (w : ResponseWriter) : ResponseWriter :=
  writeChunk (JSONLine v) w.

(** [http.Error(w, msg, code)] *)
Definition http_Error (msg : string) (c : Z) (w : ResponseWriter)
  : ResponseWriter :=
  let w := header_del "Content-Length" w in
  let w := header_set "Content-Type" "text/plain; charset=utf-8" w in
  let w := header_set "X-Content-Type-Options" "nosniff" w in
  let w := WriteHeader c w in
  writeChunk (Text (msg ++ String (ascii_of_nat 10) "")) w.

(** The status the client receives: the one sent, or 200 when the handler
    returned without writing anything. *)
Definition statusCode (w : ResponseWriter) : Z := default StatusOK (code w).

(** ** Requests *)

(** [r.Body]: the bytes the reader delivers and whether reading them ends
    in an error. *)
Record BodyReader : Type := mkBody { data : string; read_fails : bool }.

(** [ioutil.ReadAll]: the bytes read, and whether [err != nil]. *)
Definition ReadAll (b : BodyReader) : string * bool := (data b, read_fails b).

Record Request : Type := mkRequest {
  Method : string;
  URLPath : string;
  ReqBody : BodyReader
}.

(** ** [strconv.Atoi]

    Model of the standard library function: an optional sign followed by
    one or more decimal digits, whose value fits in an [int]; anything
    else is an error ([None]). *)
Definition digit_of (c : ascii) : option Z :=
  let n := Z.of_N (N_of_ascii c) - 48 in
  if (0 <=? n) && (n <=? 9) then Some n else None.

Fixpoint parse_digits (s : string) (acc : Z) : option Z :=
  match s with
  | EmptyString => Some acc
  | String c s' =>
      match digit_of c with
      | Some d => parse_digits s' (acc * 10 + d)
      | None => None
      end
  end.

Definition Atoi (s : string) : option Z :=
  match s with
  | EmptyString => None
  | String c rest =>
      let neg := Ascii.eqb c "-" in
      let digits := if neg || Ascii.eqb c "+" then rest else s in
      match digits with
      | EmptyString => None
      | String _ _ =>
          match parse_digits digits 0 with
          | Some n =>
              let v := if neg then - n else n in
              if (MinInt <=? v) && (v <=? MaxInt) then Some v else None
          | None => None
          end
      end
  end.

(** [s[n:]]: [None] is the run-time panic for a bound out of range. *)
Fixpoint slice_from (n : nat) (s : string) : option string :=
  match n, s with
  | O, _ => Some s
  | S _, EmptyString => None
  | S n', String _ s' => slice_from n' s'
  end.

(** ** The handlers *)

(** The order in which [for _, p := range posts] visits the map is not
    fixed by the language: each entry is visited once, in some order. *)
Definition range_order (m : gmap Z Post) (order : list (Z * Post)) : Prop :=
  order ≡ₚ map_to_list m.

(** Lines 88 to 91: the copy of the map's values into a new slice. *)
Definition snapshot (order : list (Z * Post)) (s : Store) : slice :=
  foldl (fun ps kv => append ps (snd kv))
        (make_slice 0 (size (posts s))) order.

(** [handleGetPosts]; [order] is the order the range loop takes.  The
    call of [fmt.Println] goes to the console and is left out. *)
Definition handleGetPosts (order : list (Z * Post)) (w : ResponseWriter)
    (s : Store) : ResponseWriter * Store :=
  let ps := snapshot order s in
  let w := header_set "Content-Type" "application/json" w in
  (Encode (json_of_slice ps) w, s).

(** Lines 122 to 124: [p.ID = nextID; nextID++; posts[p.ID] = p]. *)
Definition insertPost (p : Post) (s : Store) : Post * Store :=
  let p := mkPost (nextID s) (Body p) in
  let next := wrap (nextID s + 1) in
  (p, mkStore (<[ID p := p]> (posts s)) next).

(** The part of [handlePostPosts] that runs under the lock, for the
    payload [p] that [json.Unmarshal] produced. *)
Definition createPost (p : Post) (w : ResponseWriter) (s : Store)
  : ResponseWriter * Store :=
  let '(p, s) := insertPost p s in
  let w := header_set "Content-Type" "application/json" w in
  let w := WriteHeader StatusCreated w in
  (Encode (json_of_Post p) w, s).

Definition handleGetPost (id : Z) (w : ResponseWriter) (s : Store)
  : ResponseWriter * Store :=
  match posts s !! id with
  | None => (http_Error "Post not found" StatusNotFound w, s)
  | Some p =>
      let w := header_set "Content-Type" "application/json" w in
      (Encode (json_of_Post p) w, s)
  end.

Definition handleDeletePost (id : Z) (w : ResponseWriter) (s : Store)
  : ResponseWriter * Store :=
  match posts s !! id with
  | None => (http_Error "Post not found" StatusNotFound w, s)
  | Some _ =>
      (WriteHeader StatusOK w, mkStore (delete id (posts s)) (nextID s))
  end.

Section Handlers.

(** [json.Unmarshal(body, &p)]: the decoder is Go's and is a parameter
    of the development.  It receives the bytes and the value [p] holds
    and returns the updated [p], or [None] for [err != nil]. *)
Variable json_Unmarshal : string -> Post -> option Post.

Definition handlePostPosts (w : ResponseWriter) (r : Request) (s : Store)
  : ResponseWriter * Store :=
  let p := zeroPost in
  let '(body, err) := ReadAll (ReqBody r) in
  if err then
    (http_Error "Error reading request body" StatusInternalServerError w, s)
  else
    match json_Unmarshal body p with
    | None => (http_Error "Error parsing request body" StatusBadRequest w, s)
    | Some p => createPost p w s
    end.

(** [postsHandler], registered for the path [/posts]. *)
Definition postsHandler (order : list (Z * Post)) (w : ResponseWriter)
    (r : Request) (s : Store) : ResponseWriter * Store :=
  if String.eqb (Method r) "GET" then handleGetPosts order w s
  else if String.eqb (Method r) "POST" then handlePostPosts w r s
  else (http_Error "Method not allowed" StatusMethodNotAllowed w, s).

End Handlers.

(** [postHandler], registered for the paths below [/posts/].  [None] is
    the panic of the slice expression on a path shorter than the prefix,
    which the router never passes. *)
Definition postHandler (w : ResponseWriter) (r : Request) (s : Store)
  : option (ResponseWriter * Store) :=
  match slice_from (String.length "/posts/") (URLPath r) with
  | None => None
  | Some seg =>
      match Atoi seg with
      | None => Some (http_Error "Invalid post ID" StatusBadRequest w, s)
      | Some id =>
          if String.eqb (Method r) "GET" then Some (handleGetPost id w s)
          else if String.eqb (Method r) "DELETE" then
            Some (handleDeletePost id w s)
          else
            Some (http_Error "Method not allowed" StatusMethodNotAllowed w, s)
      end
  end.

(** ** Runs of the server

    The mutex makes the locked part of every handler atomic, so what the
    store goes through is a sequence of handler invocations. *)
Inductive Call : Type :=
  | GetPosts (order : list (Z * Post))  (* matters to the answer only *)
  | PostPosts (payload : Post)
  | GetPost (id : Z)
  | DeletePost (id : Z).

Definition step (c : Call) (s : Store) : ResponseWriter * Store :=
  match c with
  | GetPosts order => handleGetPosts order newResponse s
  | PostPosts p => createPost p newResponse s
  | GetPost id => handleGetPost id newResponse s
  | DeletePost id => handleDeletePost id newResponse s
  end.

Fixpoint run (tr : list Call) (s : Store) : Store :=
  match tr with
  | [] => s
  | c :: tr' => run tr' (snd (step c s))
  end.

(** The payload and the stored post of every insert of a run, in order. *)
Fixpoint inserts (tr : list Call) (s : Store) : list (Post * Post) :=
  match tr with
  | [] => []
  | c :: tr' =>
      match c with
      | PostPosts p => [(p, fst (insertPost p s))]
      | _ => []
      end ++ inserts tr' (snd (step c s))
  end.

Definition assigned_ids (tr : list Call) (s : Store) : list Z :=
  (fun e => ID (snd e)) <$> inserts tr s.

(** The number of deletes of a run that answered 200. *)
Fixpoint deletes (tr : list Call) (s : Store) : nat :=
  match tr with
  | [] => O
  | c :: tr' =>
      match c with
      | DeletePost id =>
          if bool_decide (statusCode (fst (step c s)) = StatusOK)
          then 1%nat else 0%nat
      | _ => 0%nat
      end + deletes tr' (snd (step c s))
  end.

(** A decoder to run the handlers on: it rejects the empty input and
    otherwise stores the bytes as the body, under the id 7.  It stands in
    for [json.Unmarshal] in the examples only. *)
Definition sample_decoder (body : string) (p : Post) : option Post :=
  match body with
  | EmptyString => None
  | String _ _ => Some (mkPost 7 body)
  end.

(** A short run: two inserts, a listing, a delete of the first post, a
    lookup of it, a third insert, and a second delete of the first post. *)
Definition sample_run : list Call :=
  [PostPosts (mkPost 0 "hello"); PostPosts (mkPost 0 "world");
   GetPosts [(2, mkPost 2 "world"); (1, mkPost 1 "hello")];
   DeletePost 1; GetPost 1; PostPosts (mkPost 9 "again"); DeletePost 1].

(** A run that brings the counter back to an id still in the map: one
    insert, then [n] times an insert followed by the delete of the post it
    stored, then one more insert. *)
Definition churn (k : nat) : list Call :=
  [PostPosts zeroPost; DeletePost (wrap (2 + Z.of_nat k))].

Definition reuse_run (n : nat) : list Call :=
  PostPosts (mkPost 0 "first")
    :: flat_map churn (seq 0 n) ++ [PostPosts (mkPost 0 "last")].

(** The calls that can change the store: [handleGetPosts] and
    [handleGetPost] only read it. *)
Definition mutating (c : Call) : bool :=
  match c with
  | GetPosts _ | GetPost _ => false
  | PostPosts _ | DeletePost _ => true
  end.

(** The three shapes an answer of the handlers takes: a JSON document with
    its content type, the plain-text error of [http.Error], and a bare
    status line. *)
Definition json_answer (c : Z) (v : json) : ResponseWriter :=
  mkResponseWriter {["Content-Type" := "application/json"]} (Some c)
                   [JSONLine v].

Definition error_answer (msg : string) (c : Z) : ResponseWriter :=
  mkResponseWriter
    (<["X-Content-Type-Options" := "nosniff"]>
       {["Content-Type" := "text/plain; charset=utf-8"]})
    (Some c) [Text (msg ++ String (ascii_of_nat 10) "")].

Definition bare_answer (c : Z) : ResponseWriter :=
  mkResponseWriter ∅ (Some c) [].

#[global] Arguments wrap : simpl never.
#[global] Arguments insertPost : simpl never.
#[global] Arguments createPost : simpl never.
#[global] Arguments handleGetPosts : simpl never.
#[global] Arguments handleGetPost : simpl never.
#[global] Arguments handleDeletePost : simpl never.

(** * Properties *)

(** ** Arithmetic of [wrap] *)

(** Side conditions on the bounds of [int]. *)
Ltac int_bounds :=
  unfold in_int_range, MinInt, MaxInt, IntModulus in *; cbn [nextID] in *; lia.

Lemma wrap_in_range (z : Z) : in_int_range (wrap z).
Proof.
  unfold in_int_range, wrap, MinInt, MaxInt, IntModulus.
  pose proof (Z.mod_pos_bound (z - -9223372036854775808) 18446744073709551616).
  lia.
Qed.

Lemma wrap_small (z : Z) : in_int_range z -> wrap z = z.
Proof.
  unfold in_int_range, wrap, MinInt, MaxInt, IntModulus. intros Hz.
  rewrite Z.mod_small; lia.
Qed.

Lemma wrap_congr (a b : Z) :
  wrap a = wrap b -> exists k, a - b = k * IntModulus.
Proof.
  unfold wrap, MinInt, IntModulus. intros H.
  assert (Hm : (a - -9223372036854775808) mod 18446744073709551616
               = (b - -9223372036854775808) mod 18446744073709551616) by lia.
  clear H.
  rewrite (Z.mod_eq (a - _)), (Z.mod_eq (b - _)) in Hm by lia.
  exists ((a - -9223372036854775808) / 18446744073709551616
          - (b - -9223372036854775808) / 18446744073709551616). lia.
Qed.

Lemma wrap_window (a b : Z) :
  0 < a - b < IntModulus -> wrap a <> wrap b.
Proof.
  intros Hab [k Hk]%wrap_congr. unfold IntModulus in *. nia.
Qed.

Lemma wrap_wrap_add (a b : Z) : wrap (wrap a + b) = wrap (a + b).
Proof.
  unfold wrap, MinInt, IntModulus.
  f_equal.
  replace ((a - -9223372036854775808) mod 18446744073709551616
           + -9223372036854775808 + b - -9223372036854775808)
    with ((a - -9223372036854775808) mod 18446744073709551616 + b) by lia.
  replace (a + b - -9223372036854775808)
    with (a - -9223372036854775808 + b) by lia.
  rewrite Zplus_mod_idemp_l. reflexivity.
Qed.

Lemma wrap_MaxInt_succ : wrap (MaxInt + 1) = MinInt.
Proof. reflexivity. Qed.

(** ** One handler invocation *)

Lemma insertPost_ID (p : Post) (s : Store) :
  ID (fst (insertPost p s)) = nextID s.
Proof. reflexivity. Qed.

Lemma insertPost_Body (p : Post) (s : Store) :
  Body (fst (insertPost p s)) = Body p.
Proof. reflexivity. Qed.

Lemma insertPost_nextID (p : Post) (s : Store) :
  nextID (snd (insertPost p s)) = wrap (nextID s + 1).
Proof. reflexivity. Qed.

Lemma insertPost_posts (p : Post) (s : Store) :
  posts (snd (insertPost p s))
  = <[nextID s := fst (insertPost p s)]> (posts s).
Proof. reflexivity. Qed.

Lemma createPost_store (p : Post) (w : ResponseWriter) (s : Store) :
  snd (createPost p w s) = snd (insertPost p s).
Proof. reflexivity. Qed.

Lemma handleGetPosts_store order (w : ResponseWriter) (s : Store) :
  snd (handleGetPosts order w s) = s.
Proof. reflexivity. Qed.

Lemma handleGetPost_store (id : Z) (w : ResponseWriter) (s : Store) :
  snd (handleGetPost id w s) = s.
Proof. unfold handleGetPost. destruct (posts s !! id); reflexivity. Qed.

Lemma handleDeletePost_found (id : Z) (w : ResponseWriter) (s : Store) (p : Post) :
  posts s !! id = Some p ->
  handleDeletePost id w s
  = (WriteHeader StatusOK w, mkStore (delete id (posts s)) (nextID s)).
Proof. unfold handleDeletePost. intros ->. reflexivity. Qed.

Lemma handleDeletePost_missing (id : Z) (w : ResponseWriter) (s : Store) :
  posts s !! id = None ->
  handleDeletePost id w s = (http_Error "Post not found" StatusNotFound w, s).
Proof. unfold handleDeletePost. intros ->. reflexivity. Qed.

Lemma http_Error_status (msg : string) (c : Z) :
  statusCode (http_Error msg c newResponse) = c.
Proof. reflexivity. Qed.

(** On a request whose body is read and decoded, [handlePostPosts] is
    [createPost] on the decoded payload. *)
Lemma handlePostPosts_decoded (U : string -> Post -> option Post)
    (w : ResponseWriter) (r : Request) (s : Store) (payload : Post) :
  read_fails (ReqBody r) = false ->
  U (data (ReqBody r)) zeroPost = Some payload ->
  handlePostPosts U w r s = createPost payload w s.
Proof.
  intros Hread Hdec. unfold handlePostPosts, ReadAll.
  rewrite Hread, Hdec. reflexivity.
Qed.

(** The scenario of the interface description, on the handlers: two posts
    are created with ids 1 and 2, the first is deleted, and after that it
    is not found; a path whose id is not a number is a bad request. *)
Example scenario :
  let s2 := run [PostPosts (mkPost 0 "hello"); PostPosts (mkPost 0 "world")]
                initial in
  let get1 := mkRequest "GET" "/posts/1" (mkBody "" false) in
  let del1 := mkRequest "DELETE" "/posts/1" (mkBody "" false) in
  let bad := mkRequest "GET" "/posts/abc" (mkBody "" false) in
  s2 = mkStore (<[2 := mkPost 2 "world"]> (<[1 := mkPost 1 "hello"]> ∅)) 3 /\
  (statusCode ∘ fst <$> postHandler newResponse del1 s2) = Some StatusOK /\
  (snd <$> postHandler newResponse del1 s2)
    = Some (mkStore (<[2 := mkPost 2 "world"]> ∅) 3) /\
  (statusCode ∘ fst <$> postHandler newResponse get1
                          (mkStore (<[2 := mkPost 2 "world"]> ∅) 3))
    = Some StatusNotFound /\
  (statusCode ∘ fst <$> postHandler newResponse bad s2)
    = Some StatusBadRequest.
Proof. vm_compute. repeat split; reflexivity. Qed.

Example Atoi_values :
  Atoi "12" = Some 12 /\ Atoi "-3" = Some (-3) /\ Atoi "+7" = Some 7 /\
  Atoi "" = None /\ Atoi "-" = None /\ Atoi "abc" = None /\
  Atoi "1 " = None /\ Atoi "9223372036854775807" = Some MaxInt /\
  Atoi "9223372036854775808" = None /\
  Atoi "-9223372036854775808" = Some MinInt.
Proof. repeat split; reflexivity. Qed.

(** ** Runs *)

Lemma step_store (c : Call) (s : Store) :
  snd (step c s)
  = match c with
    | PostPosts p => snd (insertPost p s)
    | DeletePost id =>
        match posts s !! id with
        | Some _ => mkStore (delete id (posts s)) (nextID s)
        | None => s
        end
    | _ => s
    end.
Proof.
  destruct c as [order|p|id|id]; simpl; auto using handleGetPost_store.
  unfold handleDeletePost. destruct (posts s !! id); reflexivity.
Qed.

Lemma run_app (t1 t2 : list Call) (s : Store) :
  run (t1 ++ t2) s = run t2 (run t1 s).
Proof. revert s. induction t1 as [|c t1 IH]; intros s; simpl; auto. Qed.

Lemma inserts_app (t1 t2 : list Call) (s : Store) :
  inserts (t1 ++ t2) s = inserts t1 s ++ inserts t2 (run t1 s).
Proof.
  revert s. induction t1 as [|c t1 IH]; intros s; simpl; [reflexivity|].
  rewrite IH, app_assoc. reflexivity.
Qed.

Lemma deletes_app (t1 t2 : list Call) (s : Store) :
  deletes (t1 ++ t2) s = (deletes t1 s + deletes t2 (run t1 s))%nat.
Proof.
  revert s. induction t1 as [|c t1 IH]; intros s; simpl; [reflexivity|].
  rewrite IH. lia.
Qed.

Lemma assigned_ids_app (t1 t2 : list Call) (s : Store) :
  assigned_ids (t1 ++ t2) s = assigned_ids t1 s ++ assigned_ids t2 (run t1 s).
Proof. unfold assigned_ids. rewrite inserts_app, fmap_app. reflexivity. Qed.

(** The counter after a run, whatever the calls were: it has moved by the
    number of inserts, modulo the width of [int]. *)
Lemma nextID_run (tr : list Call) (s : Store) :
  in_int_range (nextID s) ->
  nextID (run tr s) = wrap (nextID s + Z.of_nat (length (inserts tr s))).
Proof.
  revert s. induction tr as [|c tr IH]; intros s Hs; cbn.
  - rewrite Z.add_0_r, wrap_small; auto.
  - rewrite step_store.
    destruct c as [order|p|id|id]; cbn; try (apply IH; assumption).
    + rewrite IH by (rewrite insertPost_nextID; apply wrap_in_range).
      rewrite insertPost_nextID, wrap_wrap_add. f_equal. lia.
    + destruct (posts s !! id); [apply (IH (mkStore _ _))|apply IH]; assumption.
Qed.

Lemma assigned_ids_run (tr : list Call) (s : Store) :
  in_int_range (nextID s) ->
  assigned_ids tr s
  = (fun j => wrap (nextID s + Z.of_nat j)) <$> seq 0 (length (inserts tr s)).
Proof.
  unfold assigned_ids.
  revert s. induction tr as [|c tr IH]; intros s Hs; cbn; [reflexivity|].
  rewrite step_store.
  destruct c as [order|p|id|id]; cbn; try (apply IH; assumption).
  - rewrite Z.add_0_r, wrap_small by auto. f_equal.
    rewrite IH by (rewrite insertPost_nextID; apply wrap_in_range).
    rewrite <- fmap_S_seq, <- list_fmap_compose.
    apply list_fmap_ext. intros _ j _. simpl.
    rewrite wrap_wrap_add. f_equal. lia.
  - destruct (posts s !! id); [apply (IH (mkStore _ _))|apply IH]; assumption.
Qed.

(** ** What the map holds after a run *)

(** Every post in the map was put there by an insert of the run, unless
    it was in the map to begin with. *)
Lemma run_lookup (tr : list Call) (s : Store) (k : Z) (p : Post) :
  posts (run tr s) !! k = Some p ->
  posts s !! k = Some p \/ exists payload, (payload, p) ∈ inserts tr s.
Proof.
  revert s. induction tr as [|c tr IH]; intros s Hk; cbn in *; [auto|].
  destruct (IH _ Hk) as [Hs|[payload Hin]].
  - rewrite step_store in Hs. destruct c as [order|q|id|id]; auto.
    + rewrite insertPost_posts in Hs.
      apply lookup_insert_Some in Hs as [[_ <-]|[_ Hs]]; [|auto].
      right. exists q. apply elem_of_app. left. apply list_elem_of_singleton.
      reflexivity.
    + destruct (posts s !! id) eqn:Hid; [|auto].
      cbn in Hs. apply lookup_delete_Some in Hs as [_ Hs]. auto.
  - right. exists payload. apply elem_of_app. right. exact Hin.
Qed.

Lemma run_key_is_ID (tr : list Call) (s : Store) :
  (forall k p, posts s !! k = Some p -> ID p = k) ->
  forall k p, posts (run tr s) !! k = Some p -> ID p = k.
Proof.
  revert s. induction tr as [|c tr IH]; intros s Hs; cbn; [exact Hs|].
  apply IH. rewrite step_store. intros k p.
  destruct c as [order|q|id|id]; auto.
  - rewrite insertPost_posts.
    intros [[<- <-]|[_ Hk]]%lookup_insert_Some; [reflexivity|auto].
  - destruct (posts s !! id) eqn:Hid; [|auto].
    cbn. intros [_ Hk]%lookup_delete_Some. auto.
Qed.

Lemma inserts_Body (tr : list Call) (s : Store) (payload p : Post) :
  (payload, p) ∈ inserts tr s -> Body p = Body payload.
Proof.
  revert s. induction tr as [|c tr IH]; intros s; cbn.
  - intros H. inversion H.
  - intros [Hin|Hin]%elem_of_app; [|eauto].
    destruct c; try (inversion Hin; fail).
    apply list_elem_of_singleton in Hin. injection Hin as -> ->.
    reflexivity.
Qed.

(** While fewer than [2^64] posts have been inserted, the id the next
    insert will take is not a key of the map. *)
Lemma next_key_free (tr : list Call) :
  Z.of_nat (length (inserts tr initial)) < IntModulus ->
  posts (run tr initial) !! nextID (run tr initial) = None.
Proof.
  intros Hn.
  destruct (posts (run tr initial) !! nextID (run tr initial)) as [p|] eqn:Hp;
    [exfalso|reflexivity].
  assert (Hinit : in_int_range (nextID initial))
    by (unfold in_int_range, MinInt, MaxInt; cbn; lia).
  pose proof (run_key_is_ID tr initial) as Hkey.
  specialize (Hkey ltac:(intros k q; cbn; rewrite lookup_empty; discriminate)
                _ _ Hp).
  apply run_lookup in Hp as [Hp|[payload Hin]].
  { cbn in Hp. rewrite lookup_empty in Hp. discriminate. }
  assert (Hid : ID p ∈ assigned_ids tr initial).
  { unfold assigned_ids. apply list_elem_of_fmap. exists (payload, p). auto. }
  rewrite assigned_ids_run in Hid by exact Hinit.
  apply list_elem_of_fmap in Hid as [j [Hj Hjn]].
  apply elem_of_seq in Hjn.
  rewrite Hkey, nextID_run in Hj by exact Hinit.
  revert Hj. apply wrap_window. lia.
Qed.

Lemma deletes_last (c : Call) (s : Store) :
  deletes [c] s
  = match c with
    | DeletePost id =>
        match posts s !! id with Some _ => 1%nat | None => 0%nat end
    | _ => 0%nat
    end.
Proof.
  destruct c as [order|q|id|id]; cbn; try reflexivity.
  unfold handleDeletePost. destruct (posts s !! id); reflexivity.
Qed.

(** Inserts add one entry each and successful deletes remove one each,
    as long as no id has been issued twice. *)
Lemma size_after_run (tr : list Call) :
  Z.of_nat (length (inserts tr initial)) <= IntModulus ->
  (size (posts (run tr initial)) + deletes tr initial
   = length (inserts tr initial))%nat.
Proof.
  induction tr as [|c tr IH] using rev_ind; intros Hn.
  { cbn. rewrite map_size_empty. reflexivity. }
  rewrite inserts_app, length_app in Hn |- *.
  assert (Hpos : 1 < IntModulus) by reflexivity.
  rewrite deletes_app, run_app, deletes_last. cbn [run inserts].
  rewrite step_store.
  destruct c as [order|q|id|id]; cbn [inserts app length] in *.
  - rewrite <- IH by lia. lia.
  - rewrite insertPost_posts, map_size_insert_None
      by (apply next_key_free; lia).
    rewrite <- IH by lia. lia.
  - rewrite <- IH by lia. lia.
  - specialize (IH ltac:(lia)).
    destruct (posts (run tr initial) !! id) as [p|] eqn:Hid; cbn [posts].
    + rewrite map_size_delete_Some by eauto.
      assert (size (posts (run tr initial)) <> 0%nat).
      { intros Hz%map_size_empty_inv. rewrite Hz, lookup_empty in Hid.
        discriminate. }
      lia.
    + lia.
Qed.

(** ** The snapshot of [handleGetPosts] *)

Lemma snapshot_elements (order : list (Z * Post)) (s : Store) :
  snapshot order s = Slice (snd <$> order).
Proof.
  unfold snapshot, make_slice. cbn [replicate].
  change (Slice (snd <$> order)) with (Slice ([] ++ (snd <$> order))).
  generalize (@nil Post) as acc.
  induction order as [|kv order IH]; intros acc; cbn.
  - rewrite app_nil_r. reflexivity.
  - rewrite IH, <- app_assoc. reflexivity.
Qed.

Lemma snapshot_length (order : list (Z * Post)) (s : Store) :
  range_order (posts s) order ->
  length (elements_of (snapshot order s)) = size (posts s).
Proof.
  intros Hperm. rewrite snapshot_elements. cbn.
  rewrite length_fmap, Hperm. apply length_map_to_list.
Qed.

Lemma snapshot_stored (order : list (Z * Post)) (s : Store) (p : Post) :
  range_order (posts s) order ->
  p ∈ elements_of (snapshot order s) <-> exists k, posts s !! k = Some p.
Proof.
  intros Hperm. rewrite snapshot_elements. cbn.
  rewrite list_elem_of_fmap. split.
  - intros [[k q] [-> Hin]]. exists k. rewrite Hperm in Hin.
    apply elem_of_map_to_list in Hin. exact Hin.
  - intros [k Hk]. exists (k, p). split; [reflexivity|].
    rewrite Hperm. apply elem_of_map_to_list. exact Hk.
Qed.

(** ** Identifiers *)

Lemma initial_in_range : in_int_range (nextID initial).
Proof. unfold initial. int_bounds. Qed.

Lemma seqZ_increasing (m n : Z) : StronglySorted Z.lt (seqZ m n).
Proof.
  unfold seqZ. generalize (Z.to_nat n) as k. intros k.
  apply (StronglySorted_fmap _ lt Z.lt); [intros x y; lia|].
  generalize 0%nat as a. induction k as [|k IH]; intros a; cbn.
  - constructor.
  - constructor; [apply IH|].
    apply Forall_seq. intros j Hj. lia.
Qed.

(** Below the largest [int] the ids of a run are [1, 2, ..., N]. *)
Lemma assigned_ids_small (tr : list Call) :
  Z.of_nat (length (inserts tr initial)) <= MaxInt ->
  assigned_ids tr initial = seqZ 1 (Z.of_nat (length (inserts tr initial))).
Proof.
  intros Hn. rewrite assigned_ids_run by apply initial_in_range.
  unfold seqZ. rewrite Nat2Z.id.
  apply list_fmap_ext. intros i j Hj.
  apply lookup_seq in Hj as [-> Hi]. cbn [nextID initial].
  rewrite wrap_small; [lia|int_bounds].
Qed.

Lemma nextID_small (tr : list Call) :
  Z.of_nat (length (inserts tr initial)) < MaxInt ->
  nextID (run tr initial) = 1 + Z.of_nat (length (inserts tr initial)).
Proof.
  intros Hn. rewrite nextID_run by apply initial_in_range.
  cbn [nextID initial]. apply wrap_small. int_bounds.
Qed.

(** C1 (amended).  In every run from the initial store that holds fewer
    than [MaxInt] inserts, interleaved in any way with the other calls:
    each insert gives its post the value [nextID] has at that moment and
    leaves [nextID] larger by exactly 1; the ids given out are
    [1, 2, ..., N] in this order, hence strictly increasing and without
    repetition, whatever was deleted in between. *)
Theorem ids_sequential (tr : list Call) :
  Z.of_nat (length (inserts tr initial)) < MaxInt ->
  (forall tr1 payload tr2,
      tr = tr1 ++ PostPosts payload :: tr2 ->
      ID (fst (insertPost payload (run tr1 initial)))
        = nextID (run tr1 initial) /\
      nextID (snd (step (PostPosts payload) (run tr1 initial)))
        = nextID (run tr1 initial) + 1) /\
  assigned_ids tr initial = seqZ 1 (Z.of_nat (length (inserts tr initial))) /\
  StronglySorted Z.lt (assigned_ids tr initial) /\
  NoDup (assigned_ids tr initial).
Proof.
  intros Hn. split; [|rewrite assigned_ids_small by lia;
                       auto using seqZ_increasing, NoDup_seqZ].
  intros tr1 payload tr2 ->. split; [apply insertPost_ID|].
  rewrite inserts_app, length_app in Hn. cbn [inserts app length] in Hn.
  rewrite step_store, insertPost_nextID, nextID_small by lia.
  apply wrap_small. int_bounds.
Qed.

Lemma ids_sequential_sample :
  Z.of_nat (length (inserts sample_run initial)) < MaxInt /\
  assigned_ids sample_run initial = [1; 2; 3] /\
  StronglySorted Z.lt (assigned_ids sample_run initial).
Proof.
  assert (Hn : Z.of_nat (length (inserts sample_run initial)) < MaxInt)
    by (vm_compute; reflexivity).
  destruct (ids_sequential sample_run Hn) as (_ & Hids & Hsorted & _).
  split; [exact Hn|].
  split; [rewrite Hids; vm_compute; reflexivity|exact Hsorted].
Defined.

(** ** Beyond the largest [int] *)

Lemma inserts_replicate (n : nat) (p : Post) (s : Store) :
  length (inserts (replicate n (PostPosts p)) s) = n.
Proof.
  revert s. induction n as [|n IH]; intros s; cbn; [reflexivity|].
  rewrite IH. reflexivity.
Qed.

(** The store after [n] inserts in a row, when [n + 1] is the largest
    [int]: the next two inserts receive [MaxInt] and then [MinInt]. *)
Lemma counter_wraps (n : nat) :
  Z.of_nat n = MaxInt - 1 ->
  let tr := replicate n (PostPosts zeroPost) in
  let s := run tr initial in
  let s1 := snd (step (PostPosts zeroPost) s) in
  nextID s = MaxInt /\
  nextID s1 = MinInt /\
  nextID s1 <> nextID s + 1 /\
  ID (fst (insertPost zeroPost s1)) < ID (fst (insertPost zeroPost s)) /\
  ~ StronglySorted Z.lt
      (assigned_ids (tr ++ [PostPosts zeroPost; PostPosts zeroPost]) initial).
Proof.
  intros Hn tr s s1.
  assert (Hs : nextID s = MaxInt).
  { unfold s, tr. rewrite nextID_small; rewrite inserts_replicate; lia. }
  assert (Hs1 : nextID s1 = MinInt).
  { unfold s1. rewrite step_store, insertPost_nextID, Hs. reflexivity. }
  split; [exact Hs|]. split; [exact Hs1|].
  split; [rewrite Hs, Hs1; discriminate|].
  split; [rewrite !insertPost_ID, Hs, Hs1; reflexivity|].
  rewrite assigned_ids_app. intros [_ [_ Hsorted]]%StronglySorted_app.
  unfold assigned_ids in Hsorted. cbn [inserts app fmap list_fmap] in Hsorted.
  fold s in Hsorted. fold s1 in Hsorted.
  apply StronglySorted_cons in Hsorted as [Hlt _].
  apply Forall_cons in Hlt as [Hlt _]. cbn [snd] in Hlt.
  rewrite !insertPost_ID, Hs, Hs1 in Hlt. discriminate Hlt.
Qed.

(** C1, counterexample.  After [MaxInt - 1] inserts the counter stands at
    [MaxInt].  The next insert is given [MaxInt] and moves the counter to
    [MinInt], not to [MaxInt + 1]; the insert after it is given [MinInt],
    which is below the id before it, so the ids of this run of [MaxInt + 1]
    inserts are not strictly increasing. *)
Lemma ids_not_increasing_past_MaxInt :
  let tr := replicate (Z.to_nat (MaxInt - 1)) (PostPosts zeroPost) in
  let s := run tr initial in
  let s1 := snd (step (PostPosts zeroPost) s) in
  nextID s = MaxInt /\
  nextID s1 = MinInt /\
  nextID s1 <> nextID s + 1 /\
  ID (fst (insertPost zeroPost s1)) < ID (fst (insertPost zeroPost s)) /\
  ~ StronglySorted Z.lt
      (assigned_ids (tr ++ [PostPosts zeroPost; PostPosts zeroPost]) initial).
Proof.
  refine (counter_wraps (Z.to_nat (MaxInt - 1)) (Z2Nat.id _ _)).
  discriminate.
Qed.

Lemma inserts_issued (tr : list Call) (s : Store) (payload p : Post) :
  (payload, p) ∈ inserts tr s -> ID p ∈ assigned_ids tr s.
Proof.
  intros Hin. unfold assigned_ids. apply list_elem_of_fmap.
  exists (payload, p). auto.
Qed.

Lemma stored_was_issued (tr : list Call) (k : Z) (p : Post) :
  posts (run tr initial) !! k = Some p ->
  ID p = k /\ exists payload, (payload, p) ∈ inserts tr initial.
Proof.
  intros Hk. split.
  - revert Hk. apply run_key_is_ID. intros k' q. cbn.
    rewrite lookup_empty. discriminate.
  - apply run_lookup in Hk as [Hk|Hk]; [|exact Hk].
    cbn in Hk. rewrite lookup_empty in Hk. discriminate.
Qed.

(** C2 (amended).  In every store reachable from the initial one, every
    key of the map is the [ID] of the post stored under it.  As long as
    the run holds fewer than [MaxInt] inserts, [nextID] is moreover
    strictly greater than every key of the map and than every id the run
    has given out. *)
Theorem store_invariant (tr : list Call) :
  (forall k p, posts (run tr initial) !! k = Some p -> ID p = k) /\
  (Z.of_nat (length (inserts tr initial)) < MaxInt ->
   (forall k p, posts (run tr initial) !! k = Some p ->
                k < nextID (run tr initial)) /\
   Forall (fun i => i < nextID (run tr initial)) (assigned_ids tr initial)).
Proof.
  split; [intros k p Hk; apply (stored_was_issued tr k p Hk)|].
  intros Hn.
  assert (Hall : Forall (fun i => i < nextID (run tr initial))
                        (assigned_ids tr initial)).
  { rewrite nextID_small, assigned_ids_small by lia.
    apply Forall_seqZ. intros i Hi. lia. }
  split; [|exact Hall].
  intros k p Hk. apply stored_was_issued in Hk as [<- [payload Hin]].
  apply inserts_issued in Hin.
  rewrite Forall_forall in Hall. apply Hall. exact Hin.
Qed.

Lemma store_invariant_sample :
  Z.of_nat (length (inserts sample_run initial)) < MaxInt /\
  Forall (fun i => i < nextID (run sample_run initial))
         (assigned_ids sample_run initial).
Proof.
  assert (Hn : Z.of_nat (length (inserts sample_run initial)) < MaxInt)
    by (vm_compute; reflexivity).
  split; [exact Hn|].
  exact (proj2 (proj2 (store_invariant sample_run) Hn)).
Defined.

(** The store after [n + 1] inserts in a row, when [n + 1] is the largest
    [int]. *)
Lemma counter_below_key (n : nat) :
  Z.of_nat n = MaxInt - 1 ->
  let s := run (replicate (S n) (PostPosts zeroPost)) initial in
  posts s !! MaxInt = Some (mkPost MaxInt "") /\
  nextID s = MinInt /\
  ~ (forall k p, posts s !! k = Some p -> k < nextID s).
Proof.
  intros Hn s.
  destruct (counter_wraps n Hn) as (Hs0 & Hs1 & _).
  assert (Hrun : s = snd (step (PostPosts zeroPost)
                            (run (replicate n (PostPosts zeroPost)) initial))).
  { unfold s. rewrite replicate_S_end, run_app. reflexivity. }
  assert (Hstored : posts s !! MaxInt = Some (mkPost MaxInt "")).
  { rewrite Hrun, step_store, insertPost_posts, Hs0.
    rewrite lookup_insert_eq. unfold insertPost. cbn. rewrite Hs0.
    reflexivity. }
  assert (Hnext : nextID s = MinInt) by (rewrite Hrun; exact Hs1).
  split; [exact Hstored|]. split; [exact Hnext|].
  intros Hall. specialize (Hall _ _ Hstored). rewrite Hnext in Hall.
  discriminate Hall.
Qed.

(** C2, counterexample.  After [MaxInt] inserts the map holds a post under
    the key [MaxInt] while [nextID] is [MinInt]: the counter is below a
    stored id. *)
Lemma nextID_below_stored_id :
  let s := run (replicate (S (Z.to_nat (MaxInt - 1))) (PostPosts zeroPost))
               initial in
  posts s !! MaxInt = Some (mkPost MaxInt "") /\
  nextID s = MinInt /\
  ~ (forall k p, posts s !! k = Some p -> k < nextID s).
Proof.
  refine (counter_below_key (Z.to_nat (MaxInt - 1)) (Z2Nat.id _ _)).
  discriminate.
Qed.

(** ** Listing *)

Lemma NoDup_fmap_same {A B : Type} (f : A -> B) (l : list A) (x y : A) :
  NoDup (f <$> l) -> x ∈ l -> y ∈ l -> f x = f y -> x = y.
Proof.
  induction l as [|a l IH]; cbn; intros Hnd Hx Hy Hxy.
  - inversion Hx.
  - apply NoDup_cons in Hnd as [Ha Hnd].
    apply elem_of_cons in Hx as [->|Hx]; apply elem_of_cons in Hy as [->|Hy];
      auto.
    + exfalso. apply Ha. rewrite Hxy. apply list_elem_of_fmap_2. exact Hy.
    + exfalso. apply Ha. rewrite <- Hxy. apply list_elem_of_fmap_2. exact Hx.
Qed.

(** No id is given out twice among the first [2^64] inserts. *)
Lemma assigned_ids_NoDup (tr : list Call) :
  Z.of_nat (length (inserts tr initial)) <= IntModulus ->
  NoDup (assigned_ids tr initial).
Proof.
  intros Hn. rewrite assigned_ids_run by apply initial_in_range.
  apply NoDup_fmap_2_strong; [|apply NoDup_seq].
  intros x y Hx%elem_of_seq Hy%elem_of_seq Hxy. cbn [nextID initial] in Hxy.
  destruct (Nat.lt_trichotomy x y) as [Hlt|[Heq|Hgt]]; [exfalso|exact Heq|exfalso].
  - symmetry in Hxy. revert Hxy. apply wrap_window. lia.
  - revert Hxy. apply wrap_window. lia.
Qed.

(** C3 (amended).  After any run from the initial store with [N] inserts
    and [M] deletes that answered 200, where [N] is at most [2^64], a
    listing in whatever order the range loop takes answers 200 with exactly
    [N - M] posts ([M] never exceeds [N]).  Each listed post is the one a
    single insert of the run stored, with the body that insert was given:
    no other insert of the run was given the same id. *)
Theorem list_after_run (tr : list Call) (order : list (Z * Post)) :
  Z.of_nat (length (inserts tr initial)) <= IntModulus ->
  range_order (posts (run tr initial)) order ->
  let listing := elements_of (snapshot order (run tr initial)) in
  statusCode (fst (handleGetPosts order newResponse (run tr initial)))
    = StatusOK /\
  (deletes tr initial <= length (inserts tr initial))%nat /\
  length listing = (length (inserts tr initial) - deletes tr initial)%nat /\
  (forall p, p ∈ listing ->
     exists payload,
       (payload, p) ∈ inserts tr initial /\
       Body p = Body payload /\
       forall payload' p',
         (payload', p') ∈ inserts tr initial -> ID p' = ID p ->
         (payload', p') = (payload, p)).
Proof.
  intros Hn Horder listing.
  pose proof (size_after_run tr Hn) as Hsize.
  split; [reflexivity|]. split; [lia|].
  split; [unfold listing; rewrite snapshot_length by exact Horder; lia|].
  intros p [k Hk]%(snapshot_stored order _ p Horder).
  apply stored_was_issued in Hk as [_ [payload Hin]].
  exists payload. split; [exact Hin|].
  split; [exact (inserts_Body _ _ _ _ Hin)|].
  intros payload' p' Hin' Hid.
  exact (NoDup_fmap_same (fun e => ID (snd e)) _ (payload', p') (payload, p)
           (assigned_ids_NoDup tr Hn) Hin' Hin Hid).
Qed.

Lemma list_after_run_sample :
  let order := [(3, mkPost 3 "again"); (2, mkPost 2 "world")] in
  Z.of_nat (length (inserts sample_run initial)) <= IntModulus /\
  range_order (posts (run sample_run initial)) order /\
  length (elements_of (snapshot order (run sample_run initial))) = 2%nat.
Proof.
  intros order.
  assert (Hn : Z.of_nat (length (inserts sample_run initial)) <= IntModulus)
    by (vm_compute; discriminate).
  assert (Horder : range_order (posts (run sample_run initial)) order).
  { unfold range_order. vm_compute. reflexivity. }
  split; [exact Hn|]. split; [exact Horder|].
  destruct (list_after_run sample_run order Hn Horder) as (_ & _ & Hlen & _).
  rewrite Hlen. vm_compute. reflexivity.
Defined.

(** An insert followed by the delete of the post it stored leaves the map
    as it was and the counter one step further. *)
Lemma churn_run (n a : nat) (s : Store) :
  (forall k, (a <= k < a + n)%nat -> posts s !! wrap (2 + Z.of_nat k) = None) ->
  nextID s = wrap (2 + Z.of_nat a) ->
  run (flat_map churn (seq a n)) s
    = mkStore (posts s) (wrap (2 + Z.of_nat (a + n))) /\
  length (inserts (flat_map churn (seq a n)) s) = n /\
  deletes (flat_map churn (seq a n)) s = n.
Proof.
  revert a s. induction n as [|n IH]; intros a s Hfree Hnext.
  - cbn. rewrite Nat.add_0_r, <- Hnext. destruct s; auto.
  - cbn [seq flat_map]. rewrite run_app, inserts_app, deletes_app, length_app.
    set (s1 := snd (step (PostPosts zeroPost) s)).
    assert (Hs1 : posts s1 !! wrap (2 + Z.of_nat a)
                  = Some (fst (insertPost zeroPost s))).
    { unfold s1. rewrite step_store, insertPost_posts, Hnext.
      apply lookup_insert_eq. }
    assert (Hrun : run (churn a) s
                   = mkStore (posts s) (wrap (2 + Z.of_nat (S a)))).
    { unfold churn. cbn [run]. fold s1. rewrite step_store, Hs1.
      unfold s1. rewrite step_store, insertPost_posts, insertPost_nextID.
      rewrite Hnext, delete_insert_id by (apply Hfree; lia).
      rewrite wrap_wrap_add. do 2 f_equal. lia. }
    assert (Hdel : deletes (churn a) s = 1%nat).
    { unfold churn. cbn [deletes]. fold s1.
      cbn [step]. rewrite (handleDeletePost_found _ _ _ _ Hs1). reflexivity. }
    rewrite Hrun, Hdel.
    destruct (IH (S a) (mkStore (posts s) (wrap (2 + Z.of_nat (S a)))))
      as (Hr & Hi & Hd).
    { intros k Hk. apply Hfree. lia. }
    { reflexivity. }
    rewrite Hr, Hi, Hd. cbn [posts].
    split; [do 2 f_equal; lia|split; reflexivity].
Qed.

(** The store after [reuse_run n] when [n + 1] is [2^64]: the last insert
    is given the id 1 again and replaces the first post. *)
Lemma reuse_run_store (n : nat) :
  Z.of_nat n = IntModulus - 1 ->
  run (reuse_run n) initial = mkStore {[1 := mkPost 1 "last"]} 2 /\
  length (inserts (reuse_run n) initial) = (n + 2)%nat /\
  deletes (reuse_run n) initial = n.
Proof.
  intros Hn. unfold reuse_run.
  set (s1 := snd (step (PostPosts (mkPost 0 "first")) initial)).
  assert (Hs1 : s1 = mkStore {[1 := mkPost 1 "first"]} 2) by reflexivity.
  destruct (churn_run n 0 s1) as (Hr & Hi & Hd).
  { intros k Hk. rewrite Hs1. cbn [posts]. apply lookup_singleton_ne.
    rewrite <- (wrap_small 1) at 1 by int_bounds.
    intros Heq. symmetry in Heq. revert Heq. apply wrap_window. lia. }
  { rewrite Hs1. reflexivity. }
  assert (Hend : run (flat_map churn (seq 0 n)) s1
                 = mkStore {[1 := mkPost 1 "first"]} 1).
  { rewrite Hr, Hs1. cbn [posts]. f_equal.
    replace (2 + Z.of_nat (0 + n)) with (IntModulus + 1) by lia.
    reflexivity. }
  cbn [run inserts deletes]. fold s1.
  rewrite run_app, inserts_app, deletes_app, !length_app, Hend, Hi, Hd.
  split; [|split].
  - cbn [run]. rewrite step_store. unfold insertPost. cbn [posts nextID ID].
    rewrite insert_singleton_eq. reflexivity.
  - cbn. lia.
  - cbn. lia.
Qed.

(** C3, counterexample.  In the run of [2^64 + 1] inserts and [2^64 - 1]
    successful deletes built by [reuse_run], the last insert is given the
    id of the first post, which is still in the map, and replaces it: the
    difference [N - M] is 2, and every listing holds exactly one post. *)
Lemma listing_shorter_after_id_reuse :
  let tr := reuse_run (Z.to_nat (IntModulus - 1)) in
  Z.of_nat (length (inserts tr initial)) = IntModulus + 1 /\
  (deletes tr initial <= length (inserts tr initial))%nat /\
  (length (inserts tr initial) - deletes tr initial)%nat = 2%nat /\
  forall order,
    range_order (posts (run tr initial)) order ->
    length (elements_of (snapshot order (run tr initial))) = 1%nat.
Proof.
  assert (Hn : Z.of_nat (Z.to_nat (IntModulus - 1)) = IntModulus - 1)
    by (apply Z2Nat.id; discriminate).
  revert Hn. generalize (Z.to_nat (IntModulus - 1)) as n. intros n Hn tr.
  destruct (reuse_run_store n Hn) as (Hr & Hi & Hd). fold tr in Hr, Hi, Hd.
  rewrite Hr, Hi, Hd.
  split; [lia|]. split; [lia|]. split; [lia|].
  intros order Horder. rewrite snapshot_length by exact Horder.
  cbn [posts]. apply map_size_singleton.
Qed.

(** ** Single requests *)

(** C4.  On every store and for every payload, with any body, the insert
    answers 201 with a post whose id is the current [nextID] and whose
    body is the payload's; a lookup of that id on the resulting store
    answers 200 with the same post and leaves the store as it is. *)
Theorem get_after_insert (payload : Post) (s : Store) :
  let q := fst (insertPost payload s) in
  let created := createPost payload newResponse s in
  let fetched := handleGetPost (ID q) newResponse (snd created) in
  ID q = nextID s /\
  Body q = Body payload /\
  statusCode (fst created) = StatusCreated /\
  written (fst created) = [JSONLine (json_of_Post q)] /\
  statusCode (fst fetched) = StatusOK /\
  written (fst fetched) = [JSONLine (json_of_Post q)] /\
  snd fetched = snd created.
Proof.
  intros q created fetched.
  assert (Hq : posts (snd created) !! ID q = Some q).
  { unfold created. rewrite createPost_store, insertPost_posts.
    apply lookup_insert_eq. }
  unfold fetched, handleGetPost. rewrite Hq.
  repeat split; reflexivity.
Qed.

(** C5.  If [i] is in the map, the delete of [i] answers 200 and on the
    store it leaves both a lookup and a delete of [i] answer 404.  If [i]
    is not in the map, a lookup and a delete of [i] answer 404 and leave
    the store, map and counter, as it is. *)
Theorem not_found_after_delete (i : Z) (s : Store) :
  (is_Some (posts s !! i) ->
   let deleted := handleDeletePost i newResponse s in
   statusCode (fst deleted) = StatusOK /\
   statusCode (fst (handleGetPost i newResponse (snd deleted)))
     = StatusNotFound /\
   statusCode (fst (handleDeletePost i newResponse (snd deleted)))
     = StatusNotFound) /\
  (posts s !! i = None ->
   handleGetPost i newResponse s
     = (http_Error "Post not found" StatusNotFound newResponse, s) /\
   handleDeletePost i newResponse s
     = (http_Error "Post not found" StatusNotFound newResponse, s) /\
   statusCode (http_Error "Post not found" StatusNotFound newResponse)
     = StatusNotFound).
Proof.
  split.
  - intros [p Hp] deleted. unfold deleted.
    rewrite (handleDeletePost_found _ _ _ _ Hp). cbn [fst snd].
    unfold handleGetPost. rewrite handleDeletePost_missing;
      cbn [posts]; rewrite lookup_delete_eq; repeat split; reflexivity.
  - intros Hnone. unfold handleGetPost. rewrite Hnone.
    rewrite handleDeletePost_missing by exact Hnone.
    repeat split; reflexivity.
Qed.

Lemma not_found_after_delete_sample :
  let s := run [PostPosts (mkPost 0 "hello")] initial in
  is_Some (posts s !! 1) /\
  statusCode
    (fst (handleGetPost 1 newResponse (snd (handleDeletePost 1 newResponse s))))
    = StatusNotFound /\
  posts s !! 5 = None /\
  handleDeletePost 5 newResponse s
    = (http_Error "Post not found" StatusNotFound newResponse, s).
Proof.
  intros s.
  assert (H1 : is_Some (posts s !! 1)) by (vm_compute; eauto).
  assert (H5 : posts s !! 5 = None) by (vm_compute; reflexivity).
  split; [exact H1|].
  split; [exact (proj1 (proj2 (proj1 (not_found_after_delete 1 s) H1)))|].
  split; [exact H5|].
  exact (proj1 (proj2 (proj2 (not_found_after_delete 5 s) H5))).
Defined.

(** C9.  When the body of a POST is read and decoded, the [ID] the decoder
    left in the payload plays no part: the handler does what it does for
    the same body with [ID] 0, the post it stores and returns carries the
    value of [nextID], and the answer is 201. *)
Theorem payload_id_ignored (U : string -> Post -> option Post)
    (r : Request) (s : Store) (payload : Post) :
  read_fails (ReqBody r) = false ->
  U (data (ReqBody r)) zeroPost = Some payload ->
  let stored := mkPost (nextID s) (Body payload) in
  handlePostPosts U newResponse r s
    = createPost (mkPost 0 (Body payload)) newResponse s /\
  statusCode (fst (handlePostPosts U newResponse r s)) = StatusCreated /\
  written (fst (handlePostPosts U newResponse r s))
    = [JSONLine (json_of_Post stored)] /\
  posts (snd (handlePostPosts U newResponse r s)) !! nextID s = Some stored.
Proof.
  intros Hread Hdec stored.
  rewrite (handlePostPosts_decoded U _ r s payload Hread Hdec).
  repeat split; try reflexivity.
  rewrite createPost_store, insertPost_posts. apply lookup_insert_eq.
Qed.

Lemma payload_id_ignored_sample :
  let r := mkRequest "POST" "/posts" (mkBody "hello" false) in
  read_fails (ReqBody r) = false /\
  sample_decoder (data (ReqBody r)) zeroPost = Some (mkPost 7 "hello") /\
  written (fst (handlePostPosts sample_decoder newResponse r initial))
    = [JSONLine (json_of_Post (mkPost 1 "hello"))].
Proof.
  intros r.
  assert (Hread : read_fails (ReqBody r) = false) by reflexivity.
  assert (Hdec : sample_decoder (data (ReqBody r)) zeroPost
                 = Some (mkPost 7 "hello")) by reflexivity.
  split; [exact Hread|]. split; [exact Hdec|].
  exact (proj1 (proj2 (proj2
           (payload_id_ignored sample_decoder r initial _ Hread Hdec)))).
Defined.

(** The slice [handleGetPosts] encodes is never [nil]. *)
Lemma snapshot_not_nil (order : list (Z * Post)) (s : Store) :
  snapshot order s <> NilSlice /\ json_of_slice (snapshot order s) <> JNull.
Proof. rewrite snapshot_elements. split; discriminate. Qed.

(** C10.  On a store whose map is empty, as the initial store is and as
    it is again once every post has been deleted, GET on [/posts] answers
    200 with content type [application/json] and the empty JSON array,
    which is not [null]: the slice made for the snapshot has length zero
    and is not [nil]. *)
Theorem empty_listing (U : string -> Post -> option Post)
    (order : list (Z * Post)) (r : Request) (s : Store) :
  Method r = "GET" ->
  posts s = ∅ ->
  range_order (posts s) order ->
  let answer := postsHandler U order newResponse r s in
  answer = handleGetPosts order newResponse s /\
  snapshot order s = Slice [] /\
  statusCode (fst answer) = StatusOK /\
  header (fst answer) !! "Content-Type" = Some "application/json" /\
  written (fst answer) = [JSONLine (JArr [])] /\
  JArr [] <> JNull /\
  snd answer = s.
Proof.
  intros Hget Hempty Horder answer.
  assert (Hanswer : answer = handleGetPosts order newResponse s).
  { unfold answer, postsHandler. rewrite Hget. reflexivity. }
  assert (Hnil : order = []).
  { unfold range_order in Horder. rewrite Hempty, map_to_list_empty in Horder.
    apply Permutation_nil_r. exact Horder. }
  rewrite Hanswer. unfold handleGetPosts. rewrite snapshot_elements, Hnil.
  repeat split; try reflexivity. discriminate.
Qed.

Lemma empty_listing_sample :
  let r := mkRequest "GET" "/posts" (mkBody "" false) in
  let s := run [PostPosts (mkPost 0 "hello"); DeletePost 1] initial in
  Method r = "GET" /\
  posts s = ∅ /\
  range_order (posts s) [] /\
  written (fst (postsHandler sample_decoder [] newResponse r s))
    = [JSONLine (JArr [])].
Proof.
  intros r s.
  assert (Hget : Method r = "GET") by reflexivity.
  assert (Hempty : posts s = ∅) by (vm_compute; reflexivity).
  assert (Horder : range_order (posts s) []).
  { unfold range_order. rewrite Hempty, map_to_list_empty. reflexivity. }
  split; [exact Hget|]. split; [exact Hempty|]. split; [exact Horder|].
  destruct (empty_listing sample_decoder [] r s Hget Hempty Horder)
    as (_ & _ & _ & _ & Hwritten & _).
  exact Hwritten.
Defined.

(** C6 (amended).  A POST whose body cannot be read is answered with 500,
    and one whose body is read but rejected by the decoder with 400; in
    both cases no post is created and the store is left as it is. *)
Theorem bad_post_rejected (U : string -> Post -> option Post)
    (r : Request) (s : Store) :
  (read_fails (ReqBody r) = true ->
   handlePostPosts U newResponse r s
     = (http_Error "Error reading request body" StatusInternalServerError
          newResponse, s) /\
   statusCode (fst (handlePostPosts U newResponse r s))
     = StatusInternalServerError) /\
  (read_fails (ReqBody r) = false ->
   U (data (ReqBody r)) zeroPost = None ->
   handlePostPosts U newResponse r s
     = (http_Error "Error parsing request body" StatusBadRequest
          newResponse, s) /\
   statusCode (fst (handlePostPosts U newResponse r s)) = StatusBadRequest).
Proof.
  unfold handlePostPosts, ReadAll. split.
  - intros ->. split; reflexivity.
  - intros -> ->. split; reflexivity.
Qed.

Lemma bad_post_rejected_sample :
  let unreadable := mkRequest "POST" "/posts" (mkBody "hel" true) in
  let malformed := mkRequest "POST" "/posts" (mkBody "" false) in
  read_fails (ReqBody unreadable) = true /\
  snd (handlePostPosts sample_decoder newResponse unreadable initial)
    = initial /\
  read_fails (ReqBody malformed) = false /\
  sample_decoder (data (ReqBody malformed)) zeroPost = None /\
  statusCode (fst (handlePostPosts sample_decoder newResponse malformed initial))
    = StatusBadRequest.
Proof.
  intros unreadable malformed.
  assert (H1 : read_fails (ReqBody unreadable) = true) by reflexivity.
  assert (H2 : read_fails (ReqBody malformed) = false) by reflexivity.
  assert (H3 : sample_decoder (data (ReqBody malformed)) zeroPost = None)
    by reflexivity.
  split; [exact H1|].
  split.
  { rewrite (proj1 (proj1 (bad_post_rejected sample_decoder unreadable initial)
                      H1)).
    reflexivity. }
  split; [exact H2|]. split; [exact H3|].
  exact (proj2 (proj2 (bad_post_rejected sample_decoder malformed initial)
                  H2 H3)).
Defined.

(** C6, counterexample.  A POST on [/posts] whose body cannot be read is
    answered with 500, not with 400. *)
Lemma unreadable_body_answers_500 :
  let r := mkRequest "POST" "/posts" (mkBody "" true) in
  let answer := postsHandler sample_decoder [] newResponse r initial in
  read_fails (ReqBody r) = true /\
  answer = handlePostPosts sample_decoder newResponse r initial /\
  statusCode (fst answer) = StatusInternalServerError /\
  statusCode (fst answer) <> StatusBadRequest.
Proof. repeat split; try reflexivity. discriminate. Qed.

Lemma slice_from_prefix (seg : string) :
  slice_from (String.length "/posts/") ("/posts/" ++ seg) = Some seg.
Proof. reflexivity. Qed.

(** C7 (amended).  On [/posts] every method other than GET and POST is
    answered with 405.  On [/posts/{id}] every method other than GET and
    DELETE is answered with 405 when the id segment is accepted by
    [strconv.Atoi]; when it is not, the answer is 400 whatever the method
    is.  The store is left as it is in all three cases. *)
Theorem method_not_allowed (U : string -> Post -> option Post)
    (order : list (Z * Post)) (r : Request) (s : Store) :
  (Method r <> "GET" -> Method r <> "POST" ->
   postsHandler U order newResponse r s
     = (http_Error "Method not allowed" StatusMethodNotAllowed newResponse, s)) /\
  (forall (seg : string) (id : Z),
     URLPath r = ("/posts/" ++ seg)%string -> Atoi seg = Some id ->
     Method r <> "GET" -> Method r <> "DELETE" ->
     postHandler newResponse r s
       = Some (http_Error "Method not allowed" StatusMethodNotAllowed
                 newResponse, s)) /\
  (forall seg : string,
     URLPath r = ("/posts/" ++ seg)%string -> Atoi seg = None ->
     postHandler newResponse r s
       = Some (http_Error "Invalid post ID" StatusBadRequest newResponse, s)) /\
  statusCode (http_Error "Method not allowed" StatusMethodNotAllowed newResponse)
    = StatusMethodNotAllowed.
Proof.
  split; [|split; [|split; [|reflexivity]]].
  - intros Hget%String.eqb_neq Hpost%String.eqb_neq.
    unfold postsHandler. rewrite Hget, Hpost. reflexivity.
  - intros seg id Hpath Hid Hget%String.eqb_neq Hdel%String.eqb_neq.
    unfold postHandler. rewrite Hpath, slice_from_prefix, Hid, Hget, Hdel.
    reflexivity.
  - intros seg Hpath Hid.
    unfold postHandler. rewrite Hpath, slice_from_prefix, Hid. reflexivity.
Qed.

Lemma method_not_allowed_sample :
  let put_all := mkRequest "PUT" "/posts" (mkBody "" false) in
  let put_one := mkRequest "PUT" "/posts/12" (mkBody "" false) in
  Method put_all <> "GET" /\ Method put_all <> "POST" /\
  statusCode (fst (postsHandler sample_decoder [] newResponse put_all initial))
    = StatusMethodNotAllowed /\
  URLPath put_one = ("/posts/" ++ "12")%string /\ Atoi "12" = Some 12 /\
  Method put_one <> "GET" /\ Method put_one <> "DELETE" /\
  postHandler newResponse put_one initial
    = Some (http_Error "Method not allowed" StatusMethodNotAllowed
              newResponse, initial).
Proof.
  intros put_all put_one.
  assert (H1 : Method put_all <> "GET") by discriminate.
  assert (H2 : Method put_all <> "POST") by discriminate.
  assert (H3 : URLPath put_one = ("/posts/" ++ "12")%string) by reflexivity.
  assert (H4 : Atoi "12" = Some 12) by reflexivity.
  assert (H5 : Method put_one <> "GET") by discriminate.
  assert (H6 : Method put_one <> "DELETE") by discriminate.
  destruct (method_not_allowed sample_decoder [] put_all initial)
    as (Hall & _).
  destruct (method_not_allowed sample_decoder [] put_one initial)
    as (_ & Hone & _).
  repeat (split; [assumption|]).
  split; [rewrite (Hall H1 H2); reflexivity|].
  repeat (split; [assumption|]).
  exact (Hone "12" 12 H3 H4 H5 H6).
Defined.

(** C7, counterexample.  PUT on [/posts/abc]: the id segment is not an
    integer and the answer is 400, not 405. *)
Lemma bad_id_precedes_method_check :
  let r := mkRequest "PUT" "/posts/abc" (mkBody "" false) in
  Method r <> "GET" /\ Method r <> "DELETE" /\
  postHandler newResponse r initial
    = Some (http_Error "Invalid post ID" StatusBadRequest newResponse, initial) /\
  statusCode (http_Error "Invalid post ID" StatusBadRequest newResponse)
    <> StatusMethodNotAllowed.
Proof. repeat split; try reflexivity; discriminate. Qed.

(** * Further properties of the handlers *)

(** ** The counter *)

(** X1.  After any run from the initial store, of any length, [nextID] is
    1 plus the number of inserts reduced to the range of [int]: lookups,
    listings and deletes, successful or not, never move it, and it is
    always a valid [int].  The ids given out are the values the counter
    went through. *)
Theorem counter_counts_inserts (tr : list Call) :
  nextID (run tr initial)
    = wrap (1 + Z.of_nat (length (inserts tr initial))) /\
  in_int_range (nextID (run tr initial)) /\
  assigned_ids tr initial
    = (fun j => wrap (1 + Z.of_nat j))
        <$> seq 0 (length (inserts tr initial)).
Proof.
  pose proof (nextID_run tr initial initial_in_range) as Hnext.
  split; [exact Hnext|]. split.
  - rewrite Hnext. apply wrap_in_range.
  - exact (assigned_ids_run tr initial initial_in_range).
Qed.

(** X2.  Reads are invisible: dropping every listing and every lookup from
    a run, from any store, changes neither the store it ends in, nor the
    posts its inserts store, nor the number of its successful deletes. *)
Theorem reads_are_invisible (tr : list Call) (s : Store) :
  run (List.filter mutating tr) s = run tr s /\
  inserts (List.filter mutating tr) s = inserts tr s /\
  deletes (List.filter mutating tr) s = deletes tr s.
Proof.
  revert s. induction tr as [|c tr IH]; intros s; [auto|].
  destruct (IH (snd (step c s))) as (Hr & Hi & Hd).
  destruct c as [order|p|id|id]; cbn [List.filter mutating run inserts deletes].
  - rewrite step_store in Hr, Hi, Hd. rewrite step_store. auto.
  - rewrite Hr, Hi, Hd. auto.
  - rewrite step_store in Hr, Hi, Hd. rewrite step_store. auto.
  - rewrite Hr, Hi, Hd. auto.
Qed.

(** ** The size of the map *)

(** X3.  In every run from the initial store, whatever its length, the map
    holds at most as many posts as the inserts of the run minus its
    successful deletes. *)
Theorem size_at_most_inserts_minus_deletes (tr : list Call) :
  (size (posts (run tr initial)) + deletes tr initial
   <= length (inserts tr initial))%nat.
Proof.
  induction tr as [|c tr IH] using rev_ind.
  { cbn. rewrite map_size_empty. lia. }
  rewrite inserts_app, length_app, deletes_app, run_app, deletes_last.
  cbn [run inserts]. rewrite step_store.
  destruct c as [order|q|id|id]; cbn [inserts app length].
  - lia.
  - rewrite insertPost_posts, map_size_insert.
    destruct (posts (run tr initial) !! nextID (run tr initial)); cbn; lia.
  - lia.
  - destruct (posts (run tr initial) !! id) as [p|] eqn:Hid; cbn [posts].
    + rewrite map_size_delete_Some by eauto.
      assert (size (posts (run tr initial)) <> 0%nat).
      { intros Hz%map_size_empty_inv. rewrite Hz, lookup_empty in Hid.
        discriminate. }
      lia.
    + lia.
Qed.

(** X4.  While a run from the initial store holds fewer than [2^64]
    inserts, the id the next insert takes is not a key of the map: the
    insert replaces no post and the map grows by exactly one entry. *)
Theorem insert_never_overwrites (tr : list Call) (payload : Post) :
  Z.of_nat (length (inserts tr initial)) < IntModulus ->
  posts (run tr initial) !! nextID (run tr initial) = None /\
  size (posts (run (tr ++ [PostPosts payload]) initial))
    = S (size (posts (run tr initial))).
Proof.
  intros Hn. pose proof (next_key_free tr Hn) as Hfree.
  split; [exact Hfree|].
  rewrite run_app. cbn [run]. rewrite step_store, insertPost_posts.
  apply map_size_insert_None. exact Hfree.
Qed.

Lemma insert_never_overwrites_sample :
  Z.of_nat (length (inserts sample_run initial)) < IntModulus /\
  posts (run sample_run initial) !! nextID (run sample_run initial) = None.
Proof.
  assert (Hn : Z.of_nat (length (inserts sample_run initial)) < IntModulus)
    by (vm_compute; reflexivity).
  split; [exact Hn|].
  exact (proj1 (insert_never_overwrites sample_run zeroPost Hn)).
Defined.

(** ** How the calls compose *)

Lemma assigned_ids_cons (c : Call) (tr : list Call) (s : Store) :
  assigned_ids (c :: tr) s
  = match c with PostPosts _ => [nextID s] | _ => [] end
      ++ assigned_ids tr (snd (step c s)).
Proof.
  unfold assigned_ids. cbn [inserts]. rewrite fmap_app.
  destruct c; reflexivity.
Qed.

Lemma present_key_persists (tr : list Call) (s : Store) (i : Z) (p : Post) :
  posts s !! i = Some p ->
  DeletePost i ∉ tr ->
  i ∉ assigned_ids tr s ->
  posts (run tr s) !! i = Some p.
Proof.
  revert s. induction tr as [|c tr IH]; intros s Hp Hdel Hids; [exact Hp|].
  rewrite assigned_ids_cons in Hids.
  apply not_elem_of_app in Hids as [Hhead Hids].
  apply not_elem_of_cons in Hdel as [Hc Hdel].
  cbn [run]. apply IH; [|exact Hdel|exact Hids].
  rewrite step_store. destruct c as [order|q|id|id]; try exact Hp.
  - rewrite insertPost_posts, lookup_insert_ne; [exact Hp|].
    intros Heq. apply Hhead. rewrite Heq. apply list_elem_of_singleton.
    reflexivity.
  - destruct (posts s !! id); [|exact Hp].
    cbn [posts]. rewrite lookup_delete_ne; [exact Hp|].
    intros ->. apply Hc. reflexivity.
Qed.

(** X5.  A post stays in the map, unchanged, through any run that neither
    deletes its id nor gives its id to a new post; the run may start from
    any store.  A lookup of the id at the end returns the post. *)
Theorem stored_post_persists (tr : list Call) (s : Store) (i : Z) (p : Post) :
  posts s !! i = Some p ->
  DeletePost i ∉ tr ->
  i ∉ assigned_ids tr s ->
  posts (run tr s) !! i = Some p /\
  handleGetPost i newResponse (run tr s)
    = (json_answer StatusOK (json_of_Post p), run tr s).
Proof.
  intros Hp Hdel Hids.
  pose proof (present_key_persists tr s i p Hp Hdel Hids) as Hend.
  split; [exact Hend|]. unfold handleGetPost. rewrite Hend. reflexivity.
Qed.

Lemma stored_post_persists_sample :
  let s := run [PostPosts (mkPost 0 "hello")] initial in
  let tr := [PostPosts (mkPost 0 "world"); DeletePost 2; GetPost 1] in
  posts s !! 1 = Some (mkPost 1 "hello") /\
  (DeletePost 1 ∉ tr) /\
  (1 ∉ assigned_ids tr s) /\
  posts (run tr s) !! 1 = Some (mkPost 1 "hello").
Proof.
  intros s tr.
  assert (Hp : posts s !! 1 = Some (mkPost 1 "hello")) by reflexivity.
  assert (Hdel : DeletePost 1 ∉ tr).
  { unfold tr. rewrite !not_elem_of_cons. repeat split; try discriminate.
    apply not_elem_of_nil. }
  assert (Hids : 1 ∉ assigned_ids tr s).
  { change (assigned_ids tr s) with [2].
    rewrite not_elem_of_cons. split; [discriminate|apply not_elem_of_nil]. }
  split; [exact Hp|]. split; [exact Hdel|]. split; [exact Hids|].
  exact (proj1 (stored_post_persists tr s 1 _ Hp Hdel Hids)).
Defined.

(** X6.  In a run from the initial store with at most [2^64] inserts, a
    post that an insert stored is returned by a lookup of its id at the
    end of the run, with the body the insert was given, however many
    other calls came in between, provided none of them deleted that id. *)
Theorem get_after_later_calls (tr1 tr2 : list Call) (payload : Post) :
  let tr := tr1 ++ PostPosts payload :: tr2 in
  let id := nextID (run tr1 initial) in
  Z.of_nat (length (inserts tr initial)) <= IntModulus ->
  DeletePost id ∉ tr2 ->
  handleGetPost id newResponse (run tr initial)
    = (json_answer StatusOK (json_of_Post (mkPost id (Body payload))),
       run tr initial).
Proof.
  intros tr id Hn Hdel.
  pose proof (assigned_ids_NoDup tr Hn) as Hnd.
  unfold tr in Hnd. rewrite assigned_ids_app, assigned_ids_cons in Hnd.
  apply NoDup_app in Hnd as (_ & _ & Hnd). cbn [app] in Hnd.
  apply NoDup_cons in Hnd as [Hfresh _]. fold id in Hfresh.
  assert (Hrun : run tr initial
                 = run tr2 (snd (step (PostPosts payload) (run tr1 initial))))
    by (unfold tr; rewrite run_app; reflexivity).
  assert (Hp : posts (run tr initial) !! id = Some (mkPost id (Body payload))).
  { rewrite Hrun. apply present_key_persists; [|exact Hdel|exact Hfresh].
    rewrite step_store, insertPost_posts. apply lookup_insert_eq. }
  unfold handleGetPost. rewrite Hp. reflexivity.
Qed.

Lemma get_after_later_calls_sample :
  let tr1 := [PostPosts (mkPost 0 "hello")] in
  let tr2 := [DeletePost 1; PostPosts (mkPost 0 "again"); GetPost 2] in
  let tr := tr1 ++ PostPosts (mkPost 0 "world") :: tr2 in
  Z.of_nat (length (inserts tr initial)) <= IntModulus /\
  (DeletePost (nextID (run tr1 initial)) ∉ tr2) /\
  handleGetPost 2 newResponse (run tr initial)
    = (json_answer StatusOK (json_of_Post (mkPost 2 "world")), run tr initial).
Proof.
  intros tr1 tr2 tr.
  assert (Hn : Z.of_nat (length (inserts tr initial)) <= IntModulus)
    by (vm_compute; discriminate).
  assert (Hdel : DeletePost (nextID (run tr1 initial)) ∉ tr2).
  { change (nextID (run tr1 initial)) with 2. unfold tr2.
    rewrite !not_elem_of_cons. repeat split; try discriminate.
    apply not_elem_of_nil. }
  split; [exact Hn|]. split; [exact Hdel|].
  exact (get_after_later_calls tr1 tr2 (mkPost 0 "world") Hn Hdel).
Defined.

(** X7.  When the id the counter stands at is not a key of the map, an
    insert followed by the delete of the id it was given is answered with
    200 and leaves the map exactly as it was before the insert; only the
    counter has moved on, so the id is spent. *)
Theorem insert_then_delete_restores_map (payload : Post) (s : Store) :
  posts s !! nextID s = None ->
  let s1 := snd (step (PostPosts payload) s) in
  handleDeletePost (nextID s) newResponse s1
    = (bare_answer StatusOK, mkStore (posts s) (wrap (nextID s + 1))) /\
  run [PostPosts payload; DeletePost (nextID s)] s
    = mkStore (posts s) (wrap (nextID s + 1)).
Proof.
  intros Hfree s1.
  assert (Hs1 : posts s1 !! nextID s = Some (fst (insertPost payload s))).
  { unfold s1. rewrite step_store, insertPost_posts. apply lookup_insert_eq. }
  assert (Hdel : handleDeletePost (nextID s) newResponse s1
                 = (bare_answer StatusOK,
                    mkStore (posts s) (wrap (nextID s + 1)))).
  { rewrite (handleDeletePost_found _ _ _ _ Hs1). unfold s1.
    rewrite step_store, insertPost_posts, insertPost_nextID.
    rewrite delete_insert_id by exact Hfree. reflexivity. }
  split; [exact Hdel|].
  change (run [PostPosts payload; DeletePost (nextID s)] s)
    with (snd (handleDeletePost (nextID s) newResponse s1)).
  rewrite Hdel. reflexivity.
Qed.

Lemma insert_then_delete_restores_map_sample :
  let s := run [PostPosts (mkPost 0 "hello")] initial in
  posts s !! nextID s = None /\
  run [PostPosts (mkPost 0 "world"); DeletePost (nextID s)] s
    = mkStore (posts s) 3.
Proof.
  intros s.
  assert (Hfree : posts s !! nextID s = None) by reflexivity.
  split; [exact Hfree|].
  exact (proj2 (insert_then_delete_restores_map (mkPost 0 "world") s Hfree)).
Defined.

Lemma delete_store (id : Z) (s : Store) :
  snd (step (DeletePost id) s) = mkStore (delete id (posts s)) (nextID s).
Proof.
  rewrite step_store. destruct (posts s !! id) eqn:Hid; [reflexivity|].
  rewrite delete_id by exact Hid. destruct s; reflexivity.
Qed.

(** X8.  Two deletes can be swapped, whatever their ids and the store.  An
    insert and a delete can be swapped when the delete is not of the id
    the insert is about to take: the store they end in, the post the
    insert stores and the answer to the delete are the same either way. *)
Theorem writes_commute (i j : Z) (payload : Post) (s : Store) :
  run [DeletePost i; DeletePost j] s = run [DeletePost j; DeletePost i] s /\
  (i <> nextID s ->
   run [PostPosts payload; DeletePost i] s
     = run [DeletePost i; PostPosts payload] s /\
   inserts [PostPosts payload; DeletePost i] s
     = inserts [DeletePost i; PostPosts payload] s /\
   fst (step (DeletePost i) (snd (step (PostPosts payload) s)))
     = fst (step (DeletePost i) s)).
Proof.
  split.
  - cbn [run]. rewrite !delete_store. cbn [posts nextID].
    rewrite delete_delete. reflexivity.
  - intros Hne. cbn [run inserts]. rewrite !delete_store.
    rewrite !(step_store (PostPosts payload)).
    split; [|split].
    + unfold insertPost. cbn [posts nextID ID snd].
      rewrite delete_insert_ne by exact Hne. reflexivity.
    + reflexivity.
    + cbn [step]. unfold handleDeletePost.
      rewrite insertPost_posts, lookup_insert_ne by auto.
      destruct (posts s !! i); reflexivity.
Qed.

Lemma writes_commute_sample :
  let s := run [PostPosts (mkPost 0 "hello")] initial in
  1 <> nextID s /\
  run [PostPosts (mkPost 0 "world"); DeletePost 1] s
    = run [DeletePost 1; PostPosts (mkPost 0 "world")] s.
Proof.
  intros s.
  assert (Hne : 1 <> nextID s) by discriminate.
  split; [exact Hne|].
  exact (proj1 (proj2 (writes_commute 1 1 (mkPost 0 "world") s) Hne)).
Defined.

(** ** Listings *)

(** X9.  On any store and for any order of the range loop, GET on the
    collection answers 200 with content type [application/json] and a
    JSON array, never [null], that holds the visited posts in the order
    of the visit; the store is left as it is.  When the loop visits every
    entry once, the array has as many elements as the map has entries. *)
Theorem listing_answer (order : list (Z * Post)) (s : Store) :
  handleGetPosts order newResponse s
    = (json_answer StatusOK (JArr (json_of_Post <$> (snd <$> order))), s) /\
  (range_order (posts s) order ->
   length (json_of_Post <$> (snd <$> order)) = size (posts s)).
Proof.
  split.
  - unfold handleGetPosts. rewrite snapshot_elements. reflexivity.
  - intros Horder. rewrite !length_fmap, Horder. apply length_map_to_list.
Qed.

Lemma listing_answer_sample :
  let s := run [PostPosts (mkPost 0 "hello"); PostPosts (mkPost 0 "world")]
               initial in
  let order := [(1, mkPost 1 "hello"); (2, mkPost 2 "world")] in
  range_order (posts s) order /\
  length (json_of_Post <$> (snd <$> order)) = size (posts s).
Proof.
  intros s order.
  assert (Horder : range_order (posts s) order).
  { unfold range_order. vm_compute. apply perm_swap. }
  split; [exact Horder|].
  exact (proj2 (listing_answer order s) Horder).
Defined.

(** X10.  In every store reachable from the initial one, a listing names
    every id at most once, and a post is in the listing exactly when the
    map holds it under its own id, that is, exactly when a lookup of its
    id returns it. *)
Theorem listing_matches_lookups (tr : list Call) (order : list (Z * Post)) :
  range_order (posts (run tr initial)) order ->
  let listing := elements_of (snapshot order (run tr initial)) in
  NoDup (ID <$> listing) /\
  (forall p, p ∈ listing <->
             handleGetPost (ID p) newResponse (run tr initial)
               = (json_answer StatusOK (json_of_Post p), run tr initial)).
Proof.
  intros Horder listing.
  assert (Hkey : forall k p, posts (run tr initial) !! k = Some p -> ID p = k)
    by (intros k p Hk; apply (stored_was_issued tr k p Hk)).
  split.
  - unfold listing. rewrite snapshot_elements. cbn [elements_of].
    rewrite <- list_fmap_compose.
    assert (Hfst : (ID ∘ snd) <$> order = fst <$> order).
    { apply list_fmap_ext. intros n [k p] Hn. cbn.
      apply Hkey. apply elem_of_map_to_list. rewrite <- Horder.
      eapply list_elem_of_lookup_2. exact Hn. }
    rewrite Hfst, Horder. apply NoDup_fst_map_to_list.
  - intros p. unfold listing. rewrite (snapshot_stored order _ p Horder).
    unfold handleGetPost. split.
    + intros [k Hk]. rewrite (Hkey k p Hk), Hk. reflexivity.
    + intros Hget. exists (ID p).
      destruct (posts (run tr initial) !! ID p) as [q|]; [|discriminate].
      destruct p, q. injection Hget as -> ->. reflexivity.
Qed.

Lemma listing_matches_lookups_sample :
  let order := [(3, mkPost 3 "again"); (2, mkPost 2 "world")] in
  range_order (posts (run sample_run initial)) order /\
  NoDup (ID <$> elements_of (snapshot order (run sample_run initial))).
Proof.
  intros order.
  assert (Horder : range_order (posts (run sample_run initial)) order).
  { unfold range_order. vm_compute. reflexivity. }
  split; [exact Horder|].
  exact (proj1 (listing_matches_lookups sample_run order Horder)).
Defined.

(** ** The two entry points *)

Lemma slice_from_None (n : nat) (s : string) :
  slice_from n s = None <-> (String.length s < n)%nat.
Proof.
  revert s. induction n as [|n IH]; intros s; cbn.
  - split; [discriminate|lia].
  - destruct s as [|c s]; cbn; [split; [lia|reflexivity]|].
    rewrite IH. lia.
Qed.

(** X11.  [postHandler] panics exactly on the paths of fewer than seven
    bytes, where the slice expression is out of range.  On every other
    path, whether or not it starts with [/posts/], and for every method,
    it returns an answer. *)
Theorem postHandler_panics_iff_short (r : Request) (s : Store) :
  postHandler newResponse r s = None
  <-> (String.length (URLPath r) < 7)%nat.
Proof.
  unfold postHandler.
  change (String.length "/posts/") with 7%nat.
  rewrite <- (slice_from_None 7 (URLPath r)).
  destruct (slice_from 7 (URLPath r)) as [seg|]; [|tauto].
  split; [|discriminate].
  destruct (Atoi seg); [|discriminate].
  destruct (String.eqb (Method r) "GET"); [discriminate|].
  destruct (String.eqb (Method r) "DELETE"); discriminate.
Qed.

Lemma http_Error_shape (msg : string) (c : Z) :
  http_Error msg c newResponse = error_answer msg c.
Proof. reflexivity. Qed.

(** X12.  The answers of the two entry points take three shapes and no
    other.  On the collection: GET gives a JSON document with 200; POST
    gives a JSON document with 201 or a plain-text error with 400 or 500;
    any other method gives the plain-text error 405.  On a single post:
    a JSON document with 200 for GET only, a bare 200 with no header and
    no body for DELETE only, or a plain-text error with 400, 404 or 405.
    JSON documents always carry the content type [application/json] and
    errors [text/plain]. *)
Theorem answers_take_three_shapes (U : string -> Post -> option Post)
    (order : list (Z * Post)) (r : Request) (s : Store) :
  (let w := fst (postsHandler U order newResponse r s) in
   (Method r = "GET" /\ exists v, w = json_answer StatusOK v) \/
   (Method r = "POST" /\
    ((exists v, w = json_answer StatusCreated v) \/
     w = error_answer "Error parsing request body" StatusBadRequest \/
     w = error_answer "Error reading request body" StatusInternalServerError)) \/
   (Method r <> "GET" /\ Method r <> "POST" /\
    w = error_answer "Method not allowed" StatusMethodNotAllowed)) /\
  (forall w s',
     postHandler newResponse r s = Some (w, s') ->
     (Method r = "GET" /\ exists v, w = json_answer StatusOK v) \/
     (Method r = "DELETE" /\ w = bare_answer StatusOK) \/
     w = error_answer "Invalid post ID" StatusBadRequest \/
     w = error_answer "Post not found" StatusNotFound \/
     (Method r <> "GET" /\ Method r <> "DELETE" /\
      w = error_answer "Method not allowed" StatusMethodNotAllowed)).
Proof.
  split.
  - unfold postsHandler.
    destruct (String.eqb_spec (Method r) "GET") as [Hget|Hget].
    { left. split; [exact Hget|]. eexists. unfold handleGetPosts.
      reflexivity. }
    destruct (String.eqb_spec (Method r) "POST") as [Hpost|Hpost].
    { right. left. split; [exact Hpost|].
      unfold handlePostPosts, ReadAll.
      destruct (read_fails (ReqBody r)); [auto|].
      destruct (U (data (ReqBody r)) zeroPost) as [p|]; [|auto].
      left. eexists. reflexivity. }
    right. right. auto.
  - intros w s'. unfold postHandler.
    destruct (slice_from _ _) as [seg|]; [|discriminate].
    destruct (Atoi seg) as [id|].
    2:{ intros [= <- <-]. auto. }
    destruct (String.eqb_spec (Method r) "GET") as [Hget|Hget].
    { unfold handleGetPost. destruct (posts s !! id) as [p|].
      - intros [= <- <-]. left. split; [exact Hget|]. eexists. reflexivity.
      - intros [= <- <-]. auto. }
    destruct (String.eqb_spec (Method r) "DELETE") as [Hdel|Hdel].
    { unfold handleDeletePost. destruct (posts s !! id) as [p|].
      - intros [= <- <-]. right. left. auto.
      - intros [= <- <-]. auto. }
    intros [= <- <-]. do 4 right. auto.
Qed.

Lemma answers_take_three_shapes_sample :
  let r := mkRequest "DELETE" "/posts/1" (mkBody "" false) in
  let s := run [PostPosts (mkPost 0 "hello")] initial in
  postHandler newResponse r s = Some (bare_answer StatusOK, mkStore ∅ 2) /\
  ((Method r = "GET" /\ exists v, bare_answer StatusOK = json_answer StatusOK v) \/
   (Method r = "DELETE" /\ bare_answer StatusOK = bare_answer StatusOK) \/
   bare_answer StatusOK = error_answer "Invalid post ID" StatusBadRequest \/
   bare_answer StatusOK = error_answer "Post not found" StatusNotFound \/
   (Method r <> "GET" /\ Method r <> "DELETE" /\
    bare_answer StatusOK
      = error_answer "Method not allowed" StatusMethodNotAllowed)).
Proof.
  intros r s.
  assert (H : postHandler newResponse r s
              = Some (bare_answer StatusOK, mkStore ∅ 2)) by reflexivity.
  split; [exact H|].
  exact (proj2 (answers_take_three_shapes sample_decoder [] r s) _ _ H).
Defined.

Lemma wrap_succ_ne (n : Z) : wrap (n + 1) <> n.
Proof.
  destruct (Z_le_dec MinInt n) as [Hlo|Hlo];
    [destruct (Z_le_dec n MaxInt) as [Hhi|Hhi]|].
  - rewrite <- (wrap_small n) at 2 by (split; assumption).
    apply wrap_window. unfold IntModulus. lia.
  - pose proof (wrap_in_range (n + 1)). int_bounds.
  - pose proof (wrap_in_range (n + 1)). int_bounds.
Qed.

(** X13.  A POST is answered with 201 exactly when its body is read
    without error and accepted by the decoder, and the store changes
    exactly when the answer is 201: a rejected request leaves no trace,
    and an accepted one always moves the counter. *)
Theorem post_created_iff_decoded (U : string -> Post -> option Post)
    (r : Request) (s : Store) :
  let answer := handlePostPosts U newResponse r s in
  (statusCode (fst answer) = StatusCreated
   <-> read_fails (ReqBody r) = false
       /\ is_Some (U (data (ReqBody r)) zeroPost)) /\
  (snd answer <> s <-> statusCode (fst answer) = StatusCreated).
Proof.
  unfold handlePostPosts, ReadAll.
  destruct (read_fails (ReqBody r)).
  { cbn. split; split; try discriminate; [intros [? _]|]; congruence. }
  destruct (U (data (ReqBody r)) zeroPost) as [p|].
  - split; split; try reflexivity; [eauto|].
    intros _ Heq. rewrite createPost_store in Heq.
    apply (f_equal nextID) in Heq. rewrite insertPost_nextID in Heq.
    exact (wrap_succ_ne _ Heq).
  - cbn. split; split; try discriminate; [intros [_ [? ?]]|]; congruence.
Qed.

(** X14.  A request to a single post changes the store exactly when it is
    a DELETE answered with the bare 200; then the map has lost the key
    that was looked up and nothing else has changed, the counter
    included.  GET, and every request answered with an error, leaves the
    store as it is. *)
Theorem post_request_changes_store_iff_deleted (r : Request) (s s' : Store)
    (w : ResponseWriter) :
  postHandler newResponse r s = Some (w, s') ->
  (s' <> s <-> Method r = "DELETE" /\ w = bare_answer StatusOK) /\
  nextID s' = nextID s /\
  (forall k p, posts s' !! k = Some p -> posts s !! k = Some p) /\
  (size (posts s') <= size (posts s))%nat.
Proof.
  unfold postHandler.
  destruct (slice_from _ _) as [seg|]; [|discriminate].
  assert (Hsame : forall v : ResponseWriter,
             v = w -> s = s' -> (v = bare_answer StatusOK -> False) ->
             (s' <> s <-> Method r = "DELETE" /\ w = bare_answer StatusOK) /\
             nextID s' = nextID s /\
             (forall k p, posts s' !! k = Some p -> posts s !! k = Some p) /\
             (size (posts s') <= size (posts s))%nat).
  { intros v <- <- Hv. repeat split; auto; tauto. }
  destruct (Atoi seg) as [id|].
  2:{ intros [= H1 H2]. apply (Hsame _ H1 H2). discriminate. }
  destruct (String.eqb_spec (Method r) "GET") as [Hget|Hget].
  { unfold handleGetPost. destruct (posts s !! id) as [p|];
      intros [= H1 H2]; apply (Hsame _ H1 H2); discriminate. }
  destruct (String.eqb_spec (Method r) "DELETE") as [Hdel|Hdel].
  2:{ intros [= H1 H2]. apply (Hsame _ H1 H2). discriminate. }
  unfold handleDeletePost. destruct (posts s !! id) as [p|] eqn:Hid.
  2:{ intros [= H1 H2]. apply (Hsame _ H1 H2). discriminate. }
  clear Hsame. intros [= <- <-]. cbn [posts nextID].
  assert (Hchanged : mkStore (delete id (posts s)) (nextID s) <> s).
  { intros Heq. rewrite <- Heq in Hid. cbn [posts] in Hid.
    rewrite lookup_delete_eq in Hid. discriminate. }
  split; [split; [intros _; split; [exact Hdel|reflexivity]
                 |intros _; exact Hchanged]|].
  split; [reflexivity|]. split.
  - intros k q [_ Hk]%lookup_delete_Some. exact Hk.
  - rewrite map_size_delete_Some by eauto. lia.
Qed.

Lemma post_request_changes_store_iff_deleted_sample :
  let r := mkRequest "DELETE" "/posts/1" (mkBody "" false) in
  let s := run [PostPosts (mkPost 0 "hello")] initial in
  postHandler newResponse r s = Some (bare_answer StatusOK, mkStore ∅ 2) /\
  mkStore ∅ 2 <> s.
Proof.
  intros r s.
  assert (H : postHandler newResponse r s
              = Some (bare_answer StatusOK, mkStore ∅ 2)) by reflexivity.
  split; [exact H|].
  apply (proj1 (post_request_changes_store_iff_deleted r s _ _ H)).
  split; reflexivity.
Defined.

Lemma parse_digits_bad (pre : string) (c : ascii) (rest : string) (acc : Z) :
  digit_of c = None ->
  parse_digits (pre ++ String c rest) acc = None.
Proof.
  intros Hc. revert acc.
  induction pre as [|a pre IH]; intros acc.
  - change (parse_digits (String c rest) acc = None). cbn.
    rewrite Hc. reflexivity.
  - change (parse_digits (String a (pre ++ String c rest)) acc = None). cbn.
    destruct (digit_of a); [apply IH|reflexivity].
Qed.

Lemma Atoi_bad (pre : string) (c : ascii) (rest : string) :
  digit_of c = None ->
  (pre = "" -> c <> "+"%char /\ c <> "-"%char) ->
  Atoi (pre ++ String c rest) = None.
Proof.
  intros Hc Hsign.
  destruct pre as [|a pre].
  - destruct (Hsign eq_refl) as [Hplus Hminus].
    apply Ascii.eqb_neq in Hplus, Hminus.
    change (Atoi (String c rest) = None). unfold Atoi.
    rewrite Hplus, Hminus. cbn [orb parse_digits]. rewrite Hc. reflexivity.
  - change (Atoi (String a (pre ++ String c rest)) = None). unfold Atoi.
    destruct (Ascii.eqb a "-" || Ascii.eqb a "+").
    + rewrite (parse_digits_bad pre c rest) by exact Hc.
      destruct (pre ++ String c rest)%string; reflexivity.
    + assert (Hp : parse_digits (String a (pre ++ String c rest)) 0 = None)
        by exact (parse_digits_bad (String a pre) c rest 0 Hc).
      rewrite Hp. reflexivity.
Qed.

(** X15.  A request below [/posts/] whose id segment is empty, or holds a
    byte that is neither a decimal digit nor a sign in first position, is
    answered with the plain-text error 400 for every method, and the
    store is left as it is; so is every path that continues after the id,
    as in [/posts/1/] or [/posts/1/comments]. *)
Theorem malformed_id_is_bad_request (r : Request) (s : Store)
    (pre : string) (c : ascii) (rest : string) :
  digit_of c = None ->
  (pre = "" -> c <> "+"%char /\ c <> "-"%char) ->
  (URLPath r = "/posts/"
   \/ URLPath r = ("/posts/" ++ pre ++ String c rest)%string) ->
  postHandler newResponse r s
    = Some (error_answer "Invalid post ID" StatusBadRequest, s).
Proof.
  intros Hc Hsign [Hpath|Hpath]; unfold postHandler; rewrite Hpath;
    [reflexivity|].
  rewrite slice_from_prefix, (Atoi_bad pre c rest Hc Hsign). reflexivity.
Qed.

Lemma malformed_id_is_bad_request_sample :
  let r := mkRequest "DELETE" "/posts/1/comments" (mkBody "" false) in
  digit_of "/" = None /\
  postHandler newResponse r initial
    = Some (error_answer "Invalid post ID" StatusBadRequest, initial).
Proof.
  intros r.
  assert (Hc : digit_of "/" = None) by reflexivity.
  split; [exact Hc|].
  apply (malformed_id_is_bad_request r initial "1" "/" "comments" Hc).
  - discriminate.
  - right. reflexivity.
Defined.

(** ** Deleted posts *)

Lemma absent_key_persists (tr : list Call) (s : Store) (i : Z) :
  posts s !! i = None ->
  i ∉ assigned_ids tr s ->
  posts (run tr s) !! i = None.
Proof.
  revert s. induction tr as [|c tr IH]; intros s Hp Hids; [exact Hp|].
  rewrite assigned_ids_cons in Hids.
  apply not_elem_of_app in Hids as [Hhead Hids].
  cbn [run]. apply IH; [|exact Hids].
  rewrite step_store. destruct c as [order|q|id|id]; try exact Hp.
  - rewrite insertPost_posts, lookup_insert_ne; [exact Hp|].
    intros Heq. apply Hhead. rewrite Heq. apply list_elem_of_singleton.
    reflexivity.
  - destruct (posts s !! id); [|exact Hp].
    cbn [posts]. apply lookup_delete_None. right. exact Hp.
Qed.

(** X16.  In a run from the initial store with at most [2^64] inserts, an
    id that was given out and then deleted is never in the map again: at
    the end of the run, whatever came after the delete, a lookup of it is
    answered with the plain-text error 404. *)
Theorem deleted_stays_deleted (tr1 tr2 : list Call) (i : Z) :
  let tr := tr1 ++ DeletePost i :: tr2 in
  Z.of_nat (length (inserts tr initial)) <= IntModulus ->
  i ∈ assigned_ids tr1 initial ->
  handleGetPost i newResponse (run tr initial)
    = (error_answer "Post not found" StatusNotFound, run tr initial).
Proof.
  intros tr Hn Hissued.
  pose proof (assigned_ids_NoDup tr Hn) as Hnd.
  unfold tr in Hnd. rewrite assigned_ids_app, assigned_ids_cons in Hnd.
  cbn [app] in Hnd. apply NoDup_app in Hnd as (_ & Hdisj & _).
  assert (Hrun : run tr initial
                 = run tr2 (snd (step (DeletePost i) (run tr1 initial))))
    by (unfold tr; rewrite run_app; reflexivity).
  assert (Hp : posts (run tr initial) !! i = None).
  { rewrite Hrun. apply absent_key_persists; [|exact (Hdisj i Hissued)].
    rewrite delete_store. cbn [posts]. apply lookup_delete_eq. }
  unfold handleGetPost. rewrite Hp. reflexivity.
Qed.

Lemma deleted_stays_deleted_sample :
  let tr1 := [PostPosts (mkPost 0 "hello")] in
  let tr2 := [PostPosts (mkPost 0 "world"); DeletePost 1;
              GetPosts [(2, mkPost 2 "world")]] in
  let tr := tr1 ++ DeletePost 1 :: tr2 in
  Z.of_nat (length (inserts tr initial)) <= IntModulus /\
  (1 ∈ assigned_ids tr1 initial) /\
  handleGetPost 1 newResponse (run tr initial)
    = (error_answer "Post not found" StatusNotFound, run tr initial).
Proof.
  intros tr1 tr2 tr.
  assert (Hn : Z.of_nat (length (inserts tr initial)) <= IntModulus)
    by (vm_compute; discriminate).
  assert (Hissued : 1 ∈ assigned_ids tr1 initial).
  { change (assigned_ids tr1 initial) with [1]. apply list_elem_of_singleton.
    reflexivity. }
  split; [exact Hn|]. split; [exact Hissued|].
  exact (deleted_stays_deleted tr1 tr2 1 Hn Hissued).
Defined.
